(** * parseM3U: an extended-M3U playlist parser (src/parseM3U.js)

    A shallow embedding of the JavaScript function [parseM3U] and the
    properties of it that the specification states.

    JavaScript strings are sequences of UTF-16 code units; a string is
    modelled as a list of code units ([N]).  The two console channels of the
    source ([console.log] and [console.warn]) are modelled as one ordered list
    of typed messages, each with its level and the text the source prints. *)

From Stdlib Require Import Ascii String.
From Stdlib Require Import List NArith Bool Arith Lia.
Import ListNotations.

(** ** JavaScript string primitives used by the parser *)

Definition jsstring := list N.

(** An ASCII literal as a JavaScript string. *)
Definition lit (s : string) : jsstring :=
  map N_of_ascii (list_ascii_of_string s).

Definition LF : N := 10.
Definition QUOTE : N := 34.
Definition HASH : N := 35.
Definition COMMA : N := 44.
Definition EQUALS : N := 61.

(** [!s] on a string: only the empty string is falsy. *)
Definition isEmpty (s : jsstring) : bool :=
  match s with
  | [] => true
  | _ :: _ => false
  end.

(** [a === b] on strings. *)
Fixpoint strictEquals (a b : jsstring) : bool :=
  match a, b with
  | [], [] => true
  | x :: a', y :: b' => (x =? y)%N && strictEquals a' b'
  | _, _ => false
  end.

(** ECMAScript WhiteSpace and LineTerminator code points: the characters
    removed by [String.prototype.trim] and matched by [\s]. All of them lie
    in the Basic Multilingual Plane, so each is one code unit. *)
Definition isWhiteSpace (c : N) : bool :=
  ((c =? 9) || (c =? 10) || (c =? 11) || (c =? 12) || (c =? 13)
   || (c =? 32) || (c =? 160) || (c =? 5760)
   || ((8192 <=? c) && (c <=? 8202))
   || (c =? 8232) || (c =? 8233) || (c =? 8239) || (c =? 8287)
   || (c =? 12288) || (c =? 65279))%N.

Fixpoint dropWhile (p : N -> bool) (s : jsstring) : jsstring :=
  match s with
  | [] => []
  | c :: s' => if p c then dropWhile p s' else s
  end.

Definition trimStart (s : jsstring) : jsstring := dropWhile isWhiteSpace s.
Definition trimEnd (s : jsstring) : jsstring := rev (trimStart (rev s)).

(** [s.trim()] *)
Definition trim (s : jsstring) : jsstring := trimEnd (trimStart s).

(** [s.split(sep)] for a one-character separator: never the empty array. *)
Fixpoint split (sep : N) (s : jsstring) : list jsstring :=
  match s with
  | [] => [[]]
  | c :: s' =>
      if (c =? sep)%N then [] :: split sep s'
      else match split sep s' with
           | [] => [[c]]
           | l :: ls => (c :: l) :: ls
           end
  end.

(** [s.startsWith(p)] *)
Fixpoint startsWith (p s : jsstring) : bool :=
  match p, s with
  | [], _ => true
  | _ :: _, [] => false
  | x :: p', y :: s' => (x =? y)%N && startsWith p' s'
  end.

(** [s.substring(i)] and [s.substring(0, j)] *)
Definition substringFrom (i : nat) (s : jsstring) : jsstring := skipn i s.
Definition substringTo (j : nat) (s : jsstring) : jsstring := firstn j s.

(** [s.lastIndexOf(c)]; [None] stands for the result -1. *)
Fixpoint lastIndexOf (c : N) (s : jsstring) : option nat :=
  match s with
  | [] => None
  | d :: s' =>
      match lastIndexOf c s' with
      | Some i => Some (S i)
      | None => if (d =? c)%N then Some 0 else None
      end
  end.

(** [toLowerCase] on the ASCII range. The parser applies it only to keys
    matched by [[a-zA-Z0-9_-]+], which are ASCII. *)
Definition lowerChar (c : N) : N :=
  if ((65 <=? c) && (c <=? 90))%N then (c + 32)%N else c.

Definition toLowerCase (s : jsstring) : jsstring := map lowerChar s.

(** Decimal rendering of a number inside a template literal. *)
Fixpoint uintDigits (d : Decimal.uint) : jsstring :=
  match d with
  | Decimal.Nil => []
  | Decimal.D0 d' => 48%N :: uintDigits d'
  | Decimal.D1 d' => 49%N :: uintDigits d'
  | Decimal.D2 d' => 50%N :: uintDigits d'
  | Decimal.D3 d' => 51%N :: uintDigits d'
  | Decimal.D4 d' => 52%N :: uintDigits d'
  | Decimal.D5 d' => 53%N :: uintDigits d'
  | Decimal.D6 d' => 54%N :: uintDigits d'
  | Decimal.D7 d' => 55%N :: uintDigits d'
  | Decimal.D8 d' => 56%N :: uintDigits d'
  | Decimal.D9 d' => 57%N :: uintDigits d'
  end.

Definition numberToString (n : nat) : jsstring := uintDigits (Nat.to_uint n).

(** ** Regular expressions of the source *)

(** The character class [[a-zA-Z0-9_-]]. *)
Definition isKeyChar (c : N) : bool :=
  (((97 <=? c) && (c <=? 122)) || ((65 <=? c) && (c <=? 90))
   || ((48 <=? c) && (c <=? 57)) || (c =? 95) || (c =? 45))%N.

(** The character class [\d]. *)
Definition isDigit (c : N) : bool := ((48 <=? c) && (c <=? 57))%N.

(** The character class of every character but the double quote. *)
Definition notQuote (c : N) : bool := negb (c =? QUOTE)%N.

(** Longest prefix of characters in a class, and what follows it: a greedy
    [+] or [*] over a character class. *)
Fixpoint span (p : N -> bool) (s : jsstring) : jsstring * jsstring :=
  match s with
  | [] => ([], [])
  | c :: s' =>
      if p c then let (a, b) := span p s' in (c :: a, b)
      else ([], s)
  end.

(** One attempt of the attribute pattern at the start of [s]. The pattern
    reads: one or more characters of [[a-zA-Z0-9_-]] (first group), an equals
    sign, a double quote, any number of characters other than the double
    quote (second group), a double quote. The result holds the two groups
    and the text after the match. Each quantifier is followed by a character
    outside its class, so the greedy attempt is the only one that can
    succeed. *)
Definition attributeAt (s : jsstring) : option (jsstring * jsstring * jsstring) :=
  match span isKeyChar s with
  | ([], _) => None
  | (key, e :: q :: afterOpen) =>
      if ((e =? EQUALS) && (q =? QUOTE))%N then
        match span notQuote afterOpen with
        | (value, _ :: rest) => Some (key, value, rest)
        | (_, []) => None
        end
      else None
  | (_, _) => None
  end.

(** [attributeRegex.exec(...)] from the current [lastIndex]: the leftmost
    position at which the pattern matches. [s] is the text from [lastIndex]
    on; the third component is the text from the new [lastIndex] on. *)
Fixpoint attributeExec (s : jsstring) : option (jsstring * jsstring * jsstring) :=
  match attributeAt s with
  | Some m => Some m
  | None =>
      match s with
      | [] => None
      | _ :: s' => attributeExec s'
      end
  end.

(** Canonicalization of a character for a case-insensitive match without
    the unicode flag. A character outside ASCII never canonicalizes to an
    ASCII one, and the pattern below is ASCII, so the identity is used
    outside [a-z]. *)
Definition canonicalize (c : N) : N :=
  if ((97 <=? c) && (c <=? 122))%N then (c - 32)%N else c.

(** A literal matched ignoring case at the start of [s]; the text after it. *)
Fixpoint matchIgnoreCase (pat s : jsstring) : option jsstring :=
  match pat, s with
  | [], _ => Some s
  | _ :: _, [] => None
  | x :: pat', y :: s' =>
      if (canonicalize x =? canonicalize y)%N then matchIgnoreCase pat' s'
      else None
  end.

(** [name.match(/^Channel\s*\d+$/i)] is not null. [\s] and [\d] are
    disjoint, so [\s*] takes every white space character after the word. *)
Definition matchesPlaceholder (s : jsstring) : bool :=
  match matchIgnoreCase (lit "Channel") s with
  | None => false
  | Some rest =>
      let digits := dropWhile isWhiteSpace rest in
      negb (isEmpty digits) && forallb isDigit digits
  end.

(** ** Data model *)

(** A channel object. [rawExtInf] is the one property that is deleted
    before a channel is emitted; [None] is the absent property. *)
Record Channel := mkChannel {
  name : jsstring;
  tvgId : jsstring;
  tvgName : jsstring;
  logo : jsstring;
  group : jsstring;
  url : jsstring;
  rawExtInf : option jsstring
}.

Definition setName (v : jsstring) (c : Channel) : Channel :=
  mkChannel v (tvgId c) (tvgName c) (logo c) (group c) (url c) (rawExtInf c).
Definition setTvgId (v : jsstring) (c : Channel) : Channel :=
  mkChannel (name c) v (tvgName c) (logo c) (group c) (url c) (rawExtInf c).
Definition setTvgName (v : jsstring) (c : Channel) : Channel :=
  mkChannel (name c) (tvgId c) v (logo c) (group c) (url c) (rawExtInf c).
Definition setLogo (v : jsstring) (c : Channel) : Channel :=
  mkChannel (name c) (tvgId c) (tvgName c) v (group c) (url c) (rawExtInf c).
Definition setGroup (v : jsstring) (c : Channel) : Channel :=
  mkChannel (name c) (tvgId c) (tvgName c) (logo c) v (url c) (rawExtInf c).

(** [c.url = line; delete c.rawExtInf] *)
Definition finalize (line : jsstring) (c : Channel) : Channel :=
  mkChannel (name c) (tvgId c) (tvgName c) (logo c) (group c) line None.

(** ** Console output *)

Inductive Level := LOG | WARN.

(** One constructor per [console.log] or [console.warn] call of the source,
    with the values its template interpolates. *)
Inductive Message :=
| StartingParse
| MissingHeader
| DiscardingPrevious (channelName : jsstring)
| MalformedExtInf (line : jsstring)
| UrlWithoutExtInf (line : jsstring)
| DirectiveBeforeUrl (line channelName : jsstring)
| MissingUrlAtEOF (raw : option jsstring)
| ParsingComplete (count : nat)
| ZeroChannels.

Definition level (m : Message) : Level :=
  match m with
  | StartingParse | ParsingComplete _ => LOG
  | _ => WARN
  end.

Definition isWarning (m : Message) : bool :=
  match level m with
  | WARN => true
  | LOG => false
  end.

(** What a template prints for a property that may be absent. *)
Definition showOptional (o : option jsstring) : jsstring :=
  match o with
  | Some s => s
  | None => lit "undefined"
  end.

(** The text each call prints. *)
Definition text (m : Message) : jsstring :=
  match m with
  | StartingParse => lit "Starting M3U Parse..."
  | MissingHeader => lit "M3U file does not start with #EXTM3U."
  | DiscardingPrevious n =>
      lit "Discarding previous channel " ++ [QUOTE] ++ n ++ [QUOTE]
        ++ lit " missing URL."
  | MalformedExtInf l => lit "Skipping malformed #EXTINF (no comma): " ++ l
  | UrlWithoutExtInf l =>
      lit "Found URL " ++ [QUOTE] ++ l ++ [QUOTE]
        ++ lit " without #EXTINF. Creating basic entry."
  | DirectiveBeforeUrl l n =>
      lit "Found directive " ++ [QUOTE] ++ l ++ [QUOTE]
        ++ lit " before URL for " ++ [QUOTE] ++ n ++ [QUOTE]
        ++ lit ". Discarding."
  | MissingUrlAtEOF r =>
      lit "Last channel " ++ [QUOTE] ++ showOptional r ++ [QUOTE]
        ++ lit " missing URL at EOF."
  | ParsingComplete k =>
      lit "M3U Parsing complete. Parsed " ++ numberToString k
        ++ lit " channels."
  | ZeroChannels => lit "Parsed 0 channels from non-empty M3U."
  end.

(** ** The parser *)

(** The [switch (key)] of the attribute loop. *)
Definition assignAttribute (key value : jsstring) (c : Channel) : Channel :=
  if strictEquals key (lit "tvg-id") then setTvgId value c
  else if strictEquals key (lit "tvg-name") then setTvgName value c
  else if strictEquals key (lit "tvg-logo") then setLogo value c
  else if strictEquals key (lit "group-title") then setGroup value c
  else c.

(** The [while ((match = attributeRegex.exec(attributesPart)) !== null)]
    loop. [s] is the part of [attributesPart] from [lastIndex] on. Every
    match is at least four characters long, so [length s] iterations are
    enough (lemma [attributeLoop_fuel] below). *)
Fixpoint attributeLoop (fuel : nat) (s : jsstring) (c : Channel) : Channel :=
  match fuel with
  | 0 => c
  | S fuel' =>
      match attributeExec s with
      | None => c
      | Some (key, value, rest) =>
          attributeLoop fuel' rest (assignAttribute (toLowerCase key) value c)
      end
  end.

Definition extractAttributes (attributesPart : jsstring) (c : Channel) : Channel :=
  attributeLoop (length attributesPart) attributesPart c.

(** The two [if]s that close the metadata branch; [emitted] is
    [parsedChannels.length]. *)
Definition normalizeName (emitted : nat) (c : Channel) : Channel :=
  let c1 :=
    if (isEmpty (name c) || matchesPlaceholder (name c))
       && negb (isEmpty (tvgName c))
    then setName (tvgName c) c
    else c in
  if isEmpty (name c1)
  then setName (lit "Unnamed Channel " ++ numberToString (emitted + 1)) c1
  else c1.

Record State := mkState {
  parsedChannels : list Channel;
  currentChannel : option Channel;
  console : list Message
}.

(** The object pushed for a URL without metadata. *)
Definition basicEntry (emitted : nat) (line : jsstring) : Channel :=
  mkChannel (lit "Channel " ++ numberToString (emitted + 1))
            [] [] [] [] line None.

(** The console after the first [if] of the metadata branch, which warns
    when a channel without URL is about to be overwritten. *)
Definition noteSuperseded (st : State) : list Message :=
  match currentChannel st with
  | Some c =>
      if isEmpty (url c)
      then console st ++ [DiscardingPrevious (name c)]
      else console st
  | None => console st
  end.

(** The branch taken when the trimmed line starts with [#EXTINF:]. *)
Definition metadataBranch (st : State) (line : jsstring) : State :=
  let console1 := noteSuperseded st in
  let infoLine := trim (substringFrom 8 line) in
  match lastIndexOf COMMA infoLine with
  | None =>
      mkState (parsedChannels st) None (console1 ++ [MalformedExtInf line])
  | Some commaIndex =>
      let c0 :=
        mkChannel (trim (substringFrom (commaIndex + 1) infoLine))
                  [] [] [] [] [] (Some line) in
      let attributesPart := trim (substringTo commaIndex infoLine) in
      let c1 := extractAttributes attributesPart c0 in
      mkState (parsedChannels st)
              (Some (normalizeName (length (parsedChannels st)) c1))
              console1
  end.

(** One iteration of the [for] loop over the lines. The [else if] chain of
    the source tests [currentChannel] in each arm; here the chain is split
    once on [currentChannel], arm by arm in the source order. *)
Definition processLine (st : State) (rawLine : jsstring) : State :=
  let line := trim rawLine in
  if startsWith (lit "#EXTINF:") line then metadataBranch st line
  else
    match currentChannel st with
    | Some c =>
        if negb (isEmpty line) && negb (startsWith [HASH] line) then
          mkState (parsedChannels st ++ [finalize line c]) None (console st)
        else if startsWith [HASH] line
                && negb (strictEquals line (lit "#EXTM3U"))
                && isEmpty (url c) then
          mkState (parsedChannels st) None
                  (console st ++ [DirectiveBeforeUrl line (name c)])
        else st
    | None =>
        if negb (isEmpty line) && negb (startsWith [HASH] line) then
          mkState (parsedChannels st
                     ++ [basicEntry (length (parsedChannels st)) line])
                  None
                  (console st ++ [UrlWithoutExtInf line])
        else st
    end.

(** The header test made before the loop, on [lines[0]]. *)
Definition headerMissing (lines : list jsstring) : bool :=
  let first := hd [] lines in
  isEmpty first || negb (startsWith (lit "#EXTM3U") (trim first)).

Definition initialState (lines : list jsstring) : State :=
  mkState [] None
          (if headerMissing lines
           then [StartingParse; MissingHeader]
           else [StartingParse]).

(** The statements after the loop. *)
Definition finish (lines : list jsstring) (st : State) : State :=
  let console1 :=
    match currentChannel st with
    | Some c =>
        if isEmpty (url c)
        then console st ++ [MissingUrlAtEOF (rawExtInf c)]
        else console st
    | None => console st
    end in
  let console2 := console1 ++ [ParsingComplete (length (parsedChannels st))] in
  let console3 :=
    if (length (parsedChannels st) =? 0) && (1 <? length lines)
    then console2 ++ [ZeroChannels]
    else console2 in
  mkState (parsedChannels st) (currentChannel st) console3.

(** The whole run: the final state holds the array that is returned and
    everything that was printed. *)
Definition run (m3uText : jsstring) : State :=
  let lines := split LF m3uText in
  finish lines (fold_left processLine lines (initialState lines)).

(** The value [parseM3U] returns. *)
Definition parseM3U (m3uText : jsstring) : list Channel :=
  parsedChannels (run m3uText).

(** The warnings [parseM3U] prints, in order: the diagnostics. *)
Definition diagnostics (m3uText : jsstring) : list Message :=
  filter isWarning (console (run m3uText)).

(** ** Notions used to state the properties *)

(** The trimmed lines the second and third arms of the loop treat as
    content: not empty and not starting with the sigil. *)
Definition isContentLine (line : jsstring) : bool :=
  negb (isEmpty line) && negb (startsWith [HASH] line).

(** The successive matches the attribute loop sees, left to right: the
    two groups of each [exec] result until it returns [null]. *)
Fixpoint attributeMatchesFrom (fuel : nat) (s : jsstring)
  : list (jsstring * jsstring) :=
  match fuel with
  | 0 => []
  | S fuel' =>
      match attributeExec s with
      | None => []
      | Some (key, value, rest) => (key, value) :: attributeMatchesFrom fuel' rest
      end
  end.

Definition attributeMatches (s : jsstring) : list (jsstring * jsstring) :=
  attributeMatchesFrom (length s) s.

(** The body of the attribute loop for one match. *)
Definition assignMatch (c : Channel) (m : jsstring * jsstring) : Channel :=
  assignAttribute (toLowerCase (fst m)) (snd m) c.

(** Equality of keys up to the case of ASCII letters, written without any
    case conversion: two characters are the same letter when they are equal
    or when one is an upper-case letter and the other one is 32 above it. *)
Definition isUpperLetter (c : N) : bool := ((65 <=? c) && (c <=? 90))%N.

Definition sameLetter (x y : N) : bool :=
  ((x =? y) || (isUpperLetter x && (x + 32 =? y))
   || (isUpperLetter y && (y + 32 =? x)))%N.

Fixpoint equalsIgnoringCase (a b : jsstring) : bool :=
  match a, b with
  | [], [] => true
  | x :: a', y :: b' => sameLetter x y && equalsIgnoringCase a' b'
  | _, _ => false
  end.

(** What an attribute does to a channel when keys are compared without
    regard to case: a key that is [tvg-id], [tvg-name], [tvg-logo] or
    [group-title] in any case sets [tvgId], [tvgName], [logo] or [group];
    any other key does nothing. *)
Definition assignIgnoringCase (c : Channel) (kv : jsstring * jsstring)
  : Channel :=
  if equalsIgnoringCase (fst kv) (lit "tvg-id") then
    mkChannel (name c) (snd kv) (tvgName c) (logo c) (group c) (url c)
              (rawExtInf c)
  else if equalsIgnoringCase (fst kv) (lit "tvg-name") then
    mkChannel (name c) (tvgId c) (snd kv) (logo c) (group c) (url c)
              (rawExtInf c)
  else if equalsIgnoringCase (fst kv) (lit "tvg-logo") then
    mkChannel (name c) (tvgId c) (tvgName c) (snd kv) (group c) (url c)
              (rawExtInf c)
  else if equalsIgnoringCase (fst kv) (lit "group-title") then
    mkChannel (name c) (tvgId c) (tvgName c) (logo c) (snd kv) (url c)
              (rawExtInf c)
  else c.

(** A text that begins with an attribute as the pattern of the source
    describes it: a non-empty key of key characters, an equals sign, and a
    value without double quote between two double quotes. *)
Definition startsWithAttribute (t : jsstring) : Prop :=
  exists key value rest,
    key <> [] /\ forallb isKeyChar key = true
    /\ forallb notQuote value = true
    /\ t = key ++ [EQUALS; QUOTE] ++ value ++ QUOTE :: rest.

(** The matches of the pattern in a text, stated on the text alone: each
    match is the leftmost attribute of what is left of the text, the search
    goes on after its closing double quote, and it ends when no attribute
    begins anywhere in what is left. *)
Inductive PatternMatches : jsstring -> list (jsstring * jsstring) -> Prop :=
| NoMoreMatch (s : jsstring) :
    (forall p q, s = p ++ q -> ~ startsWithAttribute q) ->
    PatternMatches s []
| NextMatch (skipped key value rest : jsstring)
            (ms : list (jsstring * jsstring)) :
    key <> [] -> forallb isKeyChar key = true ->
    forallb notQuote value = true ->
    (forall p q,
        skipped = p ++ q -> q <> [] ->
        ~ startsWithAttribute
            (q ++ key ++ [EQUALS; QUOTE] ++ value ++ QUOTE :: rest)) ->
    PatternMatches rest ms ->
    PatternMatches
      (skipped ++ key ++ [EQUALS; QUOTE] ++ value ++ QUOTE :: rest)
      ((key, value) :: ms).

(** The language of the placeholder pattern of the source: the word,
    in any case, then any number of white space characters (possibly none),
    then one or more digits, and nothing else. *)
Definition Placeholder (s : jsstring) : Prop :=
  exists word spaces digits,
    s = word ++ spaces ++ digits
    /\ map canonicalize word = lit "CHANNEL"
    /\ forallb isWhiteSpace spaces = true
    /\ digits <> [] /\ forallb isDigit digits = true.

(** The placeholder pattern in the words of the specification: the word
    followed by white space and a number, so with at least one white space
    character between them. *)
Definition placeholderAsStated (s : jsstring) : bool :=
  match matchIgnoreCase (lit "Channel") s with
  | None => false
  | Some rest =>
      match rest with
      | [] => false
      | c :: _ =>
          isWhiteSpace c
          && negb (isEmpty (dropWhile isWhiteSpace rest))
          && forallb isDigit (dropWhile isWhiteSpace rest)
      end
  end.

(** The name fallback chain in the words of the specification, with the
    placeholder pattern as stated there. *)
Definition nameAsStated (emitted : nat) (c : Channel) : jsstring :=
  let n1 :=
    if (isEmpty (name c) || placeholderAsStated (name c))
       && negb (isEmpty (tvgName c))
    then tvgName c
    else name c in
  if isEmpty n1
  then lit "Unnamed Channel " ++ numberToString (emitted + 1)
  else n1.

(** The first non-blank line of a document, in the words of the
    specification: the first line that is not empty after trimming. *)
Definition firstNonBlankLine (m3uText : jsstring) : option jsstring :=
  find (fun l => negb (isEmpty l)) (map trim (split LF m3uText)).

(** The specification's header test: the first non-blank line is the
    playlist-start marker. *)
Definition firstNonBlankIsHeader (m3uText : jsstring) : bool :=
  match firstNonBlankLine m3uText with
  | Some l => strictEquals l (lit "#EXTM3U")
  | None => false
  end.

(** What the loop maintains: emitted channels have a name and a URL, and
    the channel being assembled has a name, no URL yet, and its line. *)
Definition wellFormed (c : Channel) : Prop := name c <> [] /\ url c <> [].

Definition pendingShape (c : Channel) : Prop :=
  name c <> [] /\ url c = [] /\ rawExtInf c <> None.

Definition invariant (st : State) : Prop :=
  Forall wellFormed (parsedChannels st)
  /\ (forall c, currentChannel st = Some c -> pendingShape c).

(** The states the loop goes through on some playlist. *)
Definition reachable (st : State) : Prop :=
  exists lines before,
    st = fold_left processLine before (initialState lines).

(** Helpers to write playlists down: a quoted literal and lines joined by
    line feeds. *)
Definition quoted (s : string) : jsstring := [QUOTE] ++ lit s ++ [QUOTE].

Definition joinLines (ls : list jsstring) : jsstring :=
  match ls with
  | [] => []
  | l :: ls' => l ++ flat_map (fun x => LF :: x) ls'
  end.

(** Playlists and lines used as concrete inputs below. *)
Definition blankThenHeader : jsstring := joinLines [[]; lit "#EXTM3U"].

Definition directiveWithTvgName : jsstring :=
  lit "#EXTINF:-1 tvg-name=" ++ quoted "Real Name" ++ lit ",Channel 5".

Definition directiveNoSpace : jsstring :=
  lit "#EXTINF:-1 tvg-name=" ++ quoted "X" ++ lit ",Channel5".

Definition playlistNoSpace : jsstring :=
  joinLines [directiveNoSpace; lit "http://x"].

(** The state of the loop after the lines [before] of a playlist. *)
Definition stateAfter (before : list jsstring) : State :=
  fold_left processLine before (initialState before).

(** A state with a channel pending, and that channel. *)
Definition pendingA : State :=
  stateAfter [lit "#EXTM3U"; lit "#EXTINF:-1,A"].

Definition channelA : Channel :=
  mkChannel (lit "A") [] [] [] [] [] (Some (lit "#EXTINF:-1,A")).

(** An attribute block with keys in upper and mixed case and a key the
    switch does not know, and one with the same key twice. *)
Definition mixedCaseBlock : jsstring :=
  lit "-1 TVG-ID=" ++ quoted "x" ++ lit " catchup=" ++ quoted "1"
    ++ lit " Group-Title=" ++ quoted "News".
Definition repeatedKeyBlock : jsstring :=
  lit "tvg-id=" ++ quoted "a" ++ lit " TVG-ID=" ++ quoted "b".

Definition emptyChannel : Channel := mkChannel [] [] [] [] [] [] None.

(** ** Notions used to state the further properties *)

Definition CR : N := 13.

(** A text with every line feed turned into carriage return, line feed. *)
Definition toCRLF (m3uText : jsstring) : jsstring :=
  flat_map (fun c => if (c =? LF)%N then [CR; LF] else [c]) m3uText.

(** The trimmed lines no arm of the loop acts on: the empty line and the
    line that is exactly the header. *)
Definition isIgnoredLine (line : jsstring) : bool :=
  isEmpty line || strictEquals line (lit "#EXTM3U").

(** The trimmed lines the first arm of the loop takes. *)
Definition isMetadataLine (line : jsstring) : bool :=
  startsWith (lit "#EXTINF:") line.

(** The lines of a text as the loop sees them. *)
Definition trimmedLines (m3uText : jsstring) : list jsstring :=
  map trim (split LF m3uText).

(** With carriage returns before the line feeds, every line but the last
    ends with one. *)
Fixpoint withCarriageReturns (lines : list jsstring) : list jsstring :=
  match lines with
  | [] => []
  | [l] => [l]
  | l :: rest => (l ++ [CR]) :: withCarriageReturns rest
  end.

Definition isLog (m : Message) : bool := negb (isWarning m).

(** The warnings printed inside the loop. *)
Definition isLoopWarning (m : Message) : bool :=
  match m with
  | DiscardingPrevious _ | MalformedExtInf _ | UrlWithoutExtInf _
  | DirectiveBeforeUrl _ _ => true
  | _ => false
  end.

(** Text between attributes that cannot start or extend a match: it has no
    equals sign and, unless empty, ends outside the key characters. *)
Fixpoint gapOk (gap : jsstring) : bool :=
  match gap with
  | [] => true
  | [c] => negb (c =? EQUALS)%N && negb (isKeyChar c)
  | c :: gap' => negb (c =? EQUALS)%N && gapOk gap'
  end.

(** A key and a value the attribute pattern can match: a non-empty key of
    key characters and a value without a double quote. *)
Definition attributeOk (kv : jsstring * jsstring) : bool :=
  negb (isEmpty (fst kv)) && forallb isKeyChar (fst kv)
  && forallb notQuote (snd kv).

(** An attribute as it is written in a directive, after a gap. *)
Definition renderAttribute (item : jsstring * (jsstring * jsstring))
  : jsstring :=
  fst item ++ fst (snd item) ++ [EQUALS; QUOTE] ++ snd (snd item) ++ [QUOTE].

Definition sampleAttributes : list (jsstring * (jsstring * jsstring)) :=
  [(lit "-1 ", (lit "tvg-id", lit "abc"));
   (lit " ", (lit "TVG-NAME", lit "A, B"))].

(** The warnings that tell of a metadata directive that gave no record,
    and the warning that tells of a record made without one. *)
Definition isDropWarning (m : Message) : bool :=
  match m with
  | DiscardingPrevious _ | MalformedExtInf _ | DirectiveBeforeUrl _ _
  | MissingUrlAtEOF _ => true
  | _ => false
  end.

Definition isBareWarning (m : Message) : bool :=
  match m with
  | UrlWithoutExtInf _ => true
  | _ => false
  end.

(** One for a pending channel, zero for none. *)
Definition pendingCount (st : State) : nat :=
  match currentChannel st with
  | Some _ => 1
  | None => 0
  end.

(** The bookkeeping of the loop after [directives] metadata directives:
    each of them is pending, or gave a record, or was warned about. *)
Definition balanced (directives : nat) (st : State) : Prop :=
  directives + length (filter isBareWarning (console st))
  = length (filter isDropWarning (console st))
    + length (parsedChannels st) + pendingCount st.

Definition sampleDirective : jsstring :=
  lit "#EXTINF:-1 tvg-id=" ++ quoted "abc" ++ lit ",ABC News".

(** A text that fits on one line and can stand between double quotes. *)
Definition quotable (s : jsstring) : Prop := ~ In LF s /\ ~ In QUOTE s.

(** A channel whose fields can be written back: the name and the URL fit
    on one line, and the four attribute fields are quotable. *)
Definition writable (c : Channel) : Prop :=
  ~ In LF (name c) /\ ~ In LF (url c)
  /\ quotable (tvgId c) /\ quotable (tvgName c)
  /\ quotable (logo c) /\ quotable (group c).

Definition writableState (st : State) : Prop :=
  Forall writable (parsedChannels st)
  /\ (forall c, currentChannel st = Some c -> writable c).

(** A playlist with a bare URL as its second content line, and one with a
    directive without name as its second entry. *)
Definition bareSecondPlaylist : jsstring :=
  joinLines [lit "#EXTM3U"; lit "#EXTINF:-1,A"; lit "http://a";
             lit "http://b"; lit "#EXTINF:-1,C"; lit "http://c"].

Definition unnamedSecondPlaylist : jsstring :=
  joinLines [lit "#EXTM3U"; lit "#EXTINF:-1,A"; lit "http://a";
             lit "#EXTINF:-1,"; []; lit "http://b"].

(** ** Facts about the string primitives *)

Lemma isEmpty_true (s : jsstring) : isEmpty s = true <-> s = [].
Proof. destruct s; simpl; split; congruence. Qed.

Lemma isEmpty_false (s : jsstring) : isEmpty s = false <-> s <> [].
Proof. destruct s; simpl; split; congruence. Qed.

Lemma strictEquals_eq (a b : jsstring) : strictEquals a b = true <-> a = b.
Proof.
  revert b; induction a as [|x a IH]; intros [|y b]; simpl;
    try (split; congruence).
  rewrite andb_true_iff, N.eqb_eq, IH. split.
  - intros [-> ->]; reflexivity.
  - intros E; injection E; auto.
Qed.

Lemma strictEquals_neq (a b : jsstring) : strictEquals a b = false <-> a <> b.
Proof.
  rewrite <- strictEquals_eq. destruct (strictEquals a b); split; congruence.
Qed.

Lemma startsWith_prefix (p s : jsstring) :
  startsWith p s = true <-> exists r, s = p ++ r.
Proof.
  revert s; induction p as [|x p IH]; intros s; simpl.
  - split; eauto.
  - destruct s as [|y s].
    + split; [discriminate | intros [r E]; discriminate].
    + rewrite andb_true_iff, N.eqb_eq, IH. split.
      * intros [-> [r ->]]. exists r; reflexivity.
      * intros [r E]. injection E as -> ->. eauto.
Qed.

Lemma startsWith_app (p q s : jsstring) :
  startsWith (p ++ q) s = true -> startsWith p s = true.
Proof.
  rewrite !startsWith_prefix. intros [r ->].
  exists (q ++ r). now rewrite app_assoc.
Qed.

(** A metadata directive is a line that starts with the sigil. *)
Lemma extinf_starts_with_hash (line : jsstring) :
  startsWith (lit "#EXTINF:") line = true -> startsWith [HASH] line = true.
Proof. apply (startsWith_app [HASH] (lit "EXTINF:")). Qed.

Lemma dropWhile_all (p : N -> bool) (l s : jsstring) :
  forallb p l = true -> dropWhile p (l ++ s) = dropWhile p s.
Proof.
  induction l as [|c l IH]; simpl; [reflexivity|].
  rewrite andb_true_iff. intros [-> H]. auto.
Qed.

Lemma dropWhile_In (p : N -> bool) (s : jsstring) (x : N) :
  In x (dropWhile p s) -> In x s.
Proof.
  induction s as [|c s IH]; simpl; [tauto|].
  destruct (p c); simpl; tauto.
Qed.

Lemma dropWhile_idem (p : N -> bool) (s : jsstring) :
  dropWhile p (dropWhile p s) = dropWhile p s.
Proof.
  induction s as [|c s IH]; simpl; [reflexivity|].
  destruct (p c) eqn:E; [exact IH|]. simpl. now rewrite E.
Qed.

Lemma dropWhile_nil_all (p : N -> bool) (s : jsstring) :
  dropWhile p s = [] <-> forallb p s = true.
Proof.
  induction s as [|c s IH]; simpl; [tauto|].
  destruct (p c); simpl; [exact IH | split; discriminate].
Qed.

Lemma trimStart_stop (c : N) (s : jsstring) :
  isWhiteSpace c = false -> trimStart (c :: s) = c :: s.
Proof. unfold trimStart; simpl. now intros ->. Qed.

Lemma trimStart_app_stop (a : jsstring) (c : N) (s : jsstring) :
  isWhiteSpace c = false -> trimStart (a ++ c :: s) = trimStart a ++ c :: s.
Proof.
  intros Hc. unfold trimStart.
  induction a as [|x a IH]; simpl; [now rewrite Hc|].
  destruct (isWhiteSpace x); [exact IH | reflexivity].
Qed.

Lemma dropWhile_app (p : N -> bool) (x y : jsstring) :
  dropWhile p (x ++ y) =
  match dropWhile p x with
  | [] => dropWhile p y
  | t => t ++ y
  end.
Proof.
  induction x as [|c x IH]; simpl.
  - now destruct (dropWhile p y).
  - destruct (p c); [exact IH | reflexivity].
Qed.

(** [trimEnd] read from the left: a character is kept unless it is white
    space and everything after it was removed. *)
Lemma trimEnd_cons (c : N) (s : jsstring) :
  trimEnd (c :: s) =
  match trimEnd s with
  | [] => if isWhiteSpace c then [] else [c]
  | _ :: _ => c :: trimEnd s
  end.
Proof.
  unfold trimEnd, trimStart. simpl rev. rewrite dropWhile_app.
  destruct (dropWhile isWhiteSpace (rev s)) as [|d t] eqn:E; simpl.
  - now destruct (isWhiteSpace c).
  - rewrite rev_app_distr. simpl.
    destruct (rev t ++ [d]) eqn:E'; [|reflexivity].
    destruct (rev t); discriminate.
Qed.

Lemma trimEnd_In (s : jsstring) (x : N) : In x (trimEnd s) -> In x s.
Proof.
  unfold trimEnd, trimStart. rewrite <- in_rev.
  intros H. apply dropWhile_In in H. now rewrite <- in_rev in H.
Qed.

Lemma trimEnd_nil_all (s : jsstring) :
  trimEnd s = [] <-> forallb isWhiteSpace s = true.
Proof.
  induction s as [|c s IH]; [simpl; tauto|].
  rewrite trimEnd_cons. simpl forallb.
  destruct (trimEnd s) eqn:E.
  - destruct (isWhiteSpace c); simpl.
    + split; intros _; [now apply IH | reflexivity].
    + split; discriminate.
  - split; [discriminate|]. rewrite andb_true_iff. intros [_ H].
    apply IH in H. discriminate.
Qed.

Lemma trimEnd_app_stop (s : jsstring) (c : N) (b : jsstring) :
  isWhiteSpace c = false -> trimEnd (s ++ c :: b) = s ++ c :: trimEnd b.
Proof.
  intros Hc. induction s as [|x s IH]; simpl app.
  - rewrite trimEnd_cons. destruct (trimEnd b); [now rewrite Hc | reflexivity].
  - rewrite trimEnd_cons, IH. now destruct s.
Qed.

Lemma trimEnd_idem (s : jsstring) : trimEnd (trimEnd s) = trimEnd s.
Proof.
  induction s as [|c s IH]; [reflexivity|].
  rewrite trimEnd_cons.
  destruct (trimEnd s) as [|d t] eqn:E.
  - destruct (isWhiteSpace c) eqn:Hc; [reflexivity|].
    rewrite trimEnd_cons. simpl. now rewrite Hc.
  - rewrite trimEnd_cons, IH. reflexivity.
Qed.

Lemma trimStart_trimEnd (s : jsstring) :
  trimEnd (trimStart s) = trimStart (trimEnd s).
Proof.
  induction s as [|c s IH]; [reflexivity|].
  destruct (isWhiteSpace c) eqn:Hc.
  - unfold trimStart at 1. simpl. rewrite Hc. fold (trimStart s).
    rewrite trimEnd_cons. destruct (trimEnd s) as [|d t] eqn:E.
    + rewrite Hc. simpl.
      apply trimEnd_nil_all in E. apply dropWhile_nil_all in E.
      unfold trimStart. now rewrite E.
    + rewrite IH. unfold trimStart. simpl. now rewrite Hc.
  - rewrite trimStart_stop by assumption.
    rewrite trimEnd_cons. destruct (trimEnd s); rewrite ?Hc;
      now rewrite trimStart_stop.
Qed.

Lemma trim_trimStart (s : jsstring) : trim (trimStart s) = trim s.
Proof. unfold trim, trimStart. now rewrite dropWhile_idem. Qed.

Lemma trim_trimEnd (s : jsstring) : trim (trimEnd s) = trim s.
Proof.
  unfold trim. now rewrite <- trimStart_trimEnd, trimEnd_idem.
Qed.

Lemma trim_In (s : jsstring) (x : N) : In x (trim s) -> In x s.
Proof.
  unfold trim. intros H. apply trimEnd_In in H.
  unfold trimStart in H. now apply dropWhile_In in H.
Qed.

(** White space around a text that has a comma in it: the part up to the
    last comma keeps its end and the part after it keeps its start. *)
Lemma trim_around_comma (a b : jsstring) :
  trim (a ++ COMMA :: b) = trimStart a ++ COMMA :: trimEnd b.
Proof.
  unfold trim. rewrite trimStart_app_stop by reflexivity.
  now rewrite trimEnd_app_stop by reflexivity.
Qed.

Lemma lastIndexOf_absent (c : N) (s : jsstring) :
  ~ In c s -> lastIndexOf c s = None.
Proof.
  induction s as [|d s IH]; simpl; [reflexivity|].
  intros H. rewrite IH by tauto.
  destruct (N.eqb_spec d c); [|reflexivity]. exfalso; auto.
Qed.

Lemma lastIndexOf_last (c : N) (a b : jsstring) :
  ~ In c b -> lastIndexOf c (a ++ c :: b) = Some (length a).
Proof.
  intros H. induction a as [|d a IH]; simpl.
  - rewrite lastIndexOf_absent by assumption. now rewrite N.eqb_refl.
  - now rewrite IH.
Qed.

(** A text with a comma has a last one. *)
Lemma last_occurrence_split (c : N) (s : jsstring) :
  In c s -> exists a b, s = a ++ c :: b /\ ~ In c b.
Proof.
  induction s as [|d s IH]; [intros []|].
  intros Hin. destruct (in_dec N.eq_dec c s) as [Hs | Hs].
  - destruct (IH Hs) as (a & b & -> & Hb). now exists (d :: a), b.
  - destruct Hin as [-> | Hin]; [|contradiction]. now exists [], s.
Qed.

Lemma lastIndexOf_found (c : N) (s : jsstring) (i : nat) :
  lastIndexOf c s = Some i ->
  exists a b, s = a ++ c :: b /\ ~ In c b /\ i = length a.
Proof.
  revert i; induction s as [|d s IH]; simpl; [discriminate|].
  intros i. destruct (lastIndexOf c s) as [j|] eqn:E.
  - intros [= <-]. destruct (IH j eq_refl) as (a & b & -> & Hb & ->).
    exists (d :: a), b. auto.
  - destruct (N.eqb_spec d c) as [->|]; [|discriminate].
    intros [= <-]. exists [], s. repeat split.
    intros Hin. clear IH. induction s as [|e s IHs]; [tauto|].
    simpl in E. destruct (lastIndexOf c s); [discriminate|].
    destruct (N.eqb_spec e c); [discriminate|].
    destruct Hin; [congruence | auto].
Qed.

(** ** Facts about the attribute pattern *)

Lemma span_app (p : N -> bool) (s : jsstring) :
  fst (span p s) ++ snd (span p s) = s.
Proof.
  induction s as [|c s IH]; simpl; [reflexivity|].
  destruct (p c); [|reflexivity].
  destruct (span p s); simpl in *. now rewrite IH.
Qed.

Lemma span_all (p : N -> bool) (s : jsstring) :
  forallb p (fst (span p s)) = true.
Proof.
  induction s as [|c s IH]; simpl; [reflexivity|].
  destruct (p c) eqn:E; [|reflexivity].
  destruct (span p s); simpl in *. now rewrite E.
Qed.

Lemma span_stop (p : N -> bool) (s : jsstring) (c : N) (r : jsstring) :
  snd (span p s) = c :: r -> p c = false.
Proof.
  induction s as [|d s IH]; simpl; [discriminate|].
  destruct (p d) eqn:E.
  - destruct (span p s); simpl in *. exact IH.
  - simpl. now intros [= <- _].
Qed.

Lemma span_prefix (p : N -> bool) (a : jsstring) (c : N) (r : jsstring) :
  forallb p a = true -> p c = false -> span p (a ++ c :: r) = (a, c :: r).
Proof.
  intros Ha Hc. induction a as [|d a IH]; simpl in *.
  - now rewrite Hc.
  - apply andb_true_iff in Ha as [-> Ha]. now rewrite IH.
Qed.

(** What one attempt accepts: a non-empty key of key characters, an equals
    sign, and a value without a double quote between two double quotes. *)
Lemma attributeAt_sound (s key value rest : jsstring) :
  attributeAt s = Some (key, value, rest) ->
  s = key ++ [EQUALS; QUOTE] ++ value ++ QUOTE :: rest
  /\ key <> [] /\ forallb isKeyChar key = true
  /\ forallb notQuote value = true.
Proof.
  unfold attributeAt.
  pose proof (span_app isKeyChar s) as Happ.
  pose proof (span_all isKeyChar s) as Hall.
  destruct (span isKeyChar s) as [k after]; simpl in *.
  destruct k as [|k0 k]; [discriminate|].
  destruct after as [|e [|q afterOpen]]; try discriminate.
  destruct ((e =? EQUALS)%N && (q =? QUOTE)%N) eqn:E; [|discriminate].
  apply andb_true_iff in E as [He Hq].
  apply N.eqb_eq in He, Hq. subst e q.
  pose proof (span_app notQuote afterOpen) as Happ'.
  pose proof (span_all notQuote afterOpen) as Hall'.
  pose proof (span_stop notQuote afterOpen) as Hstop.
  destruct (span notQuote afterOpen) as [v after']; simpl in *.
  destruct after' as [|q' r]; [discriminate|].
  intros [= <- <- <-].
  specialize (Hstop q' r eq_refl). unfold notQuote in Hstop.
  apply negb_false_iff, N.eqb_eq in Hstop. subst q'.
  repeat split; try assumption; try discriminate.
  rewrite <- Happ, <- Happ'. reflexivity.
Qed.

Lemma attributeAt_complete (key value rest : jsstring) :
  key <> [] -> forallb isKeyChar key = true ->
  forallb notQuote value = true ->
  attributeAt (key ++ [EQUALS; QUOTE] ++ value ++ QUOTE :: rest)
  = Some (key, value, rest).
Proof.
  intros Hne Hk Hv. unfold attributeAt. simpl app.
  rewrite span_prefix by (assumption || reflexivity).
  destruct key; [congruence|]. simpl.
  rewrite span_prefix by (assumption || reflexivity).
  reflexivity.
Qed.

Lemma attributeAt_shorter (s key value rest : jsstring) :
  attributeAt s = Some (key, value, rest) -> length rest < length s.
Proof.
  intros H. apply attributeAt_sound in H as (-> & _).
  repeat (rewrite length_app; cbn [length app]). lia.
Qed.

(** A match found by [exec] lies somewhere in the text, and the text after
    it is shorter than the text searched. *)
Lemma attributeExec_sound (s key value rest : jsstring) :
  attributeExec s = Some (key, value, rest) ->
  exists skipped,
    s = skipped ++ key ++ [EQUALS; QUOTE] ++ value ++ QUOTE :: rest
    /\ attributeAt (key ++ [EQUALS; QUOTE] ++ value ++ QUOTE :: rest)
       = Some (key, value, rest).
Proof.
  induction s as [|c s IH]; simpl.
  - unfold attributeAt; simpl. discriminate.
  - destruct (attributeAt (c :: s)) as [m|] eqn:E.
    + intros [= ->]. exists []. simpl.
      pose proof (attributeAt_sound _ _ _ _ E) as (Hs & _).
      simpl in Hs. rewrite <- Hs. auto.
    + intros H. destruct (IH H) as (sk & -> & Hat).
      exists (c :: sk). auto.
Qed.

Lemma attributeExec_at (s : jsstring) (m : jsstring * jsstring * jsstring) :
  attributeAt s = Some m -> attributeExec s = Some m.
Proof.
  intros H. destruct s; [discriminate H|]. cbn [attributeExec]. now rewrite H.
Qed.

Lemma attributeExec_shorter (s key value rest : jsstring) :
  attributeExec s = Some (key, value, rest) -> length rest < length s.
Proof.
  intros H. apply attributeExec_sound in H as (sk & -> & _).
  repeat (rewrite length_app; cbn [length app]). lia.
Qed.

(** The loop stops because [exec] returns [null], never because the fuel
    runs out: any fuel from [length s] on gives the same channel. *)
Lemma attributeLoop_fuel (fuel1 fuel2 : nat) (s : jsstring) (c : Channel) :
  length s <= fuel1 -> length s <= fuel2 ->
  attributeLoop fuel1 s c = attributeLoop fuel2 s c.
Proof.
  revert fuel2 s c. induction fuel1 as [|f1 IH]; intros fuel2 s c H1 H2.
  - destruct s; [|simpl in H1; lia]. destruct fuel2; reflexivity.
  - destruct fuel2 as [|f2].
    + destruct s; [|simpl in H2; lia]. reflexivity.
    + simpl. destruct (attributeExec s) as [[[k v] rest]|] eqn:E;
        [|reflexivity].
      apply attributeExec_shorter in E. apply IH; lia.
Qed.

(** The loop as the source writes it: one [exec], one [switch], again. *)
Lemma extractAttributes_unfold (s : jsstring) (c : Channel) :
  extractAttributes s c =
  match attributeExec s with
  | None => c
  | Some (key, value, rest) =>
      extractAttributes rest (assignAttribute (toLowerCase key) value c)
  end.
Proof.
  unfold extractAttributes. destruct s as [|x s].
  - reflexivity.
  - simpl length. cbn [attributeLoop].
    destruct (attributeExec (x :: s)) as [[[k v] rest]|] eqn:E;
      [|reflexivity].
    apply attributeExec_shorter in E. simpl in E.
    apply attributeLoop_fuel; lia.
Qed.

Lemma attributeMatchesFrom_fuel (fuel1 fuel2 : nat) (s : jsstring) :
  length s <= fuel1 -> length s <= fuel2 ->
  attributeMatchesFrom fuel1 s = attributeMatchesFrom fuel2 s.
Proof.
  revert fuel2 s. induction fuel1 as [|f1 IH]; intros fuel2 s H1 H2.
  - destruct s; [|simpl in H1; lia]. destruct fuel2; reflexivity.
  - destruct fuel2 as [|f2].
    + destruct s; [|simpl in H2; lia]. reflexivity.
    + simpl. destruct (attributeExec s) as [[[k v] rest]|] eqn:E;
        [|reflexivity].
      apply attributeExec_shorter in E. f_equal. apply IH; lia.
Qed.

Lemma attributeMatches_unfold (s : jsstring) :
  attributeMatches s =
  match attributeExec s with
  | None => []
  | Some (key, value, rest) => (key, value) :: attributeMatches rest
  end.
Proof.
  unfold attributeMatches. destruct s as [|x s].
  - reflexivity.
  - simpl length. cbn [attributeMatchesFrom].
    destruct (attributeExec (x :: s)) as [[[k v] rest]|] eqn:E;
      [|reflexivity].
    apply attributeExec_shorter in E. simpl in E.
    f_equal. apply attributeMatchesFrom_fuel; lia.
Qed.

(** Induction on the text left to search, shorter at every match. *)
Lemma by_length (P : jsstring -> Prop) :
  (forall s, (forall t, length t < length s -> P t) -> P s) ->
  forall s, P s.
Proof.
  intros step s.
  assert (H : forall n t, length t < n -> P t).
  { induction n as [|n IH]; intros t Ht; [lia|].
    apply step. intros u Hu. apply IH. lia. }
  apply (H (S (length s))). lia.
Qed.

(** The loop is the left-to-right fold of its body over the matches. *)
Lemma extractAttributes_fold (s : jsstring) (c : Channel) :
  extractAttributes s c = fold_left assignMatch (attributeMatches s) c.
Proof.
  revert c. induction s as [s IH] using by_length. intros c.
  rewrite extractAttributes_unfold, attributeMatches_unfold.
  destruct (attributeExec s) as [[[k v] rest]|] eqn:E; [|reflexivity].
  simpl. apply IH. eapply attributeExec_shorter; eauto.
Qed.

(** Every key the loop sees is made of key characters. *)
Lemma attributeMatches_keys (s : jsstring) :
  Forall (fun m => fst m <> [] /\ forallb isKeyChar (fst m) = true
                   /\ forallb notQuote (snd m) = true)
         (attributeMatches s).
Proof.
  induction s as [s IH] using by_length.
  rewrite attributeMatches_unfold.
  destruct (attributeExec s) as [[[k v] rest]|] eqn:E; [|constructor].
  constructor.
  - apply attributeExec_sound in E as (sk & _ & Hat).
    apply attributeAt_sound in Hat as (_ & ? & ? & ?). simpl. auto.
  - apply IH. eapply attributeExec_shorter; eauto.
Qed.

(** Boolean comparisons on code units as propositions, for [lia]. *)
Ltac code_units :=
  repeat match goal with
         | H : _ = false |- _ => apply not_true_iff_false in H
         | |- _ = false => apply not_true_iff_false; intro
         end;
  unfold isWhiteSpace, isKeyChar, isDigit, notQuote, QUOTE, EQUALS, COMMA,
    HASH, LF in *;
  rewrite ?negb_true_iff, ?orb_true_iff, ?andb_true_iff, ?N.eqb_eq,
    ?N.eqb_neq, ?N.leb_le in *;
  try lia.

Lemma whiteSpace_not_keyChar (c : N) :
  isWhiteSpace c = true -> isKeyChar c = false.
Proof. intros H. code_units. Qed.

Lemma whiteSpace_not_digit (c : N) :
  isWhiteSpace c = true -> isDigit c = false.
Proof. intros H. code_units. Qed.

Lemma whiteSpace_notQuote (c : N) :
  isWhiteSpace c = true -> notQuote c = true.
Proof. intros H. code_units. Qed.

Lemma whiteSpace_not_equals (c : N) :
  isWhiteSpace c = true -> (c =? EQUALS)%N = false.
Proof. intros H. code_units. Qed.

Lemma whiteSpace_not_quote (c : N) :
  isWhiteSpace c = true -> (c =? QUOTE)%N = false.
Proof. intros H. code_units. Qed.

Lemma attributeAt_skip (c : N) (s : jsstring) :
  isKeyChar c = false -> attributeAt (c :: s) = None.
Proof. intros H. unfold attributeAt. simpl. now rewrite H. Qed.

Lemma attributeExec_skip (c : N) (s : jsstring) :
  isKeyChar c = false -> attributeExec (c :: s) = attributeExec s.
Proof. intros H. simpl. now rewrite attributeAt_skip. Qed.

Lemma attributeExec_whiteSpace (w : jsstring) :
  forallb isWhiteSpace w = true -> attributeExec w = None.
Proof.
  induction w as [|c w IH]; [reflexivity|]. simpl forallb.
  rewrite andb_true_iff. intros [Hc Hw].
  rewrite attributeExec_skip by now apply whiteSpace_not_keyChar. auto.
Qed.

Lemma span_app_fail (p : N -> bool) (s w : jsstring) :
  forallb (fun x => negb (p x)) w = true ->
  span p (s ++ w) = (fst (span p s), snd (span p s) ++ w).
Proof.
  intros Hw. induction s as [|c s IH]; simpl.
  - destruct w as [|x w]; [reflexivity|]. simpl in *.
    apply andb_true_iff in Hw as [Hx _].
    apply negb_true_iff in Hx. now rewrite Hx.
  - destruct (p c); [|reflexivity].
    rewrite IH. now destruct (span p s).
Qed.

Lemma span_app_pass (p : N -> bool) (s w : jsstring) :
  forallb p w = true ->
  span p (s ++ w) =
  match snd (span p s) with
  | [] => (s ++ w, [])
  | after => (fst (span p s), after ++ w)
  end.
Proof.
  intros Hw. induction s as [|c s IH]; simpl.
  - induction w as [|x w IHw]; [reflexivity|]. simpl in *.
    apply andb_true_iff in Hw as [-> Hw]. now rewrite IHw.
  - destruct (p c); [|reflexivity].
    rewrite IH. destruct (span p s) as [a [|d after]]; reflexivity.
Qed.

(** White space after the text changes no attempt, except that it follows
    what is left over. *)
Lemma attributeAt_app_whiteSpace (s w : jsstring) :
  forallb isWhiteSpace w = true ->
  attributeAt (s ++ w) =
  match attributeAt s with
  | Some (key, value, rest) => Some (key, value, rest ++ w)
  | None => None
  end.
Proof.
  intros Hw. unfold attributeAt.
  rewrite span_app_fail.
  2:{ rewrite forallb_forall in *. intros x Hx.
      now rewrite whiteSpace_not_keyChar by auto. }
  destruct (span isKeyChar s) as [k after]; simpl.
  destruct k as [|k0 k]; [reflexivity|].
  destruct after as [|e [|q afterOpen]]; simpl.
  - destruct w as [|e [|q w']]; try reflexivity.
    simpl in Hw. apply andb_true_iff in Hw as [He _].
    now rewrite whiteSpace_not_equals.
  - destruct w as [|q w']; [reflexivity|].
    simpl in Hw. apply andb_true_iff in Hw as [Hq _].
    now rewrite whiteSpace_not_quote, andb_false_r.
  - destruct ((e =? EQUALS)%N && (q =? QUOTE)%N); [|reflexivity].
    rewrite span_app_pass.
    2:{ rewrite forallb_forall in *. intros x Hx.
        now apply whiteSpace_notQuote; auto. }
    destruct (span notQuote afterOpen) as [v [|q' r]]; reflexivity.
Qed.

Lemma attributeExec_app_whiteSpace (s w : jsstring) :
  forallb isWhiteSpace w = true ->
  attributeExec (s ++ w) =
  match attributeExec s with
  | Some (key, value, rest) => Some (key, value, rest ++ w)
  | None => None
  end.
Proof.
  intros Hw. induction s as [|c s IH].
  - simpl app. now rewrite attributeExec_whiteSpace.
  - change ((c :: s) ++ w) with (c :: (s ++ w)).
    cbn [attributeExec].
    change (c :: (s ++ w)) with ((c :: s) ++ w).
    rewrite attributeAt_app_whiteSpace by assumption.
    destruct (attributeAt (c :: s)) as [[[k v] r]|]; [reflexivity|].
    exact IH.
Qed.

Lemma attributeMatches_app_whiteSpace (s w : jsstring) :
  forallb isWhiteSpace w = true ->
  attributeMatches (s ++ w) = attributeMatches s.
Proof.
  intros Hw. induction s as [s IH] using by_length.
  rewrite (attributeMatches_unfold (s ++ w)), (attributeMatches_unfold s).
  rewrite attributeExec_app_whiteSpace by assumption.
  destruct (attributeExec s) as [[[k v] rest]|] eqn:E; [|reflexivity].
  f_equal. apply IH. eapply attributeExec_shorter; eauto.
Qed.

Lemma attributeMatches_trimStart (s : jsstring) :
  attributeMatches (trimStart s) = attributeMatches s.
Proof.
  unfold trimStart. induction s as [|c s IH]; [reflexivity|]. simpl.
  destruct (isWhiteSpace c) eqn:Hc; [|reflexivity].
  rewrite IH, (attributeMatches_unfold (c :: s)), (attributeMatches_unfold s).
  now rewrite attributeExec_skip by now apply whiteSpace_not_keyChar.
Qed.

Lemma trimEnd_removed (s : jsstring) :
  exists w, s = trimEnd s ++ w /\ forallb isWhiteSpace w = true.
Proof.
  induction s as [|c s (w & Hs & Hw)]; [now exists []|].
  rewrite trimEnd_cons. destruct (trimEnd s) as [|d t] eqn:E.
  - simpl in Hs. subst w. destruct (isWhiteSpace c) eqn:Hc.
    + exists (c :: s). simpl. now rewrite Hc.
    + exists s. auto.
  - exists w. split; [|assumption]. simpl. now rewrite Hs at 1.
Qed.

Lemma attributeMatches_trimEnd (s : jsstring) :
  attributeMatches (trimEnd s) = attributeMatches s.
Proof.
  destruct (trimEnd_removed s) as (w & Hs & Hw).
  rewrite Hs at 2. now rewrite attributeMatches_app_whiteSpace.
Qed.

(** Trimming the attribute block, as the source does, changes nothing for
    the loop: no match starts or ends with white space. *)
Lemma attributeMatches_trim (s : jsstring) :
  attributeMatches (trim s) = attributeMatches s.
Proof.
  unfold trim. now rewrite attributeMatches_trimEnd, attributeMatches_trimStart.
Qed.

Lemma extractAttributes_trim (s : jsstring) (c : Channel) :
  extractAttributes (trim s) c = extractAttributes s c.
Proof. now rewrite !extractAttributes_fold, attributeMatches_trim. Qed.

(** ** Facts about the placeholder pattern *)

Lemma matchIgnoreCase_sound (pat s rest : jsstring) :
  matchIgnoreCase pat s = Some rest ->
  exists word, s = word ++ rest
               /\ map canonicalize word = map canonicalize pat.
Proof.
  revert s; induction pat as [|x pat IH]; intros s; simpl.
  - intros [= ->]. now exists [].
  - destruct s as [|y s]; [discriminate|].
    destruct (N.eqb_spec (canonicalize x) (canonicalize y)) as [E|];
      [|discriminate].
    intros H. destruct (IH _ H) as (w & -> & Hw).
    exists (y :: w). simpl. now rewrite Hw, E.
Qed.

Lemma matchIgnoreCase_complete (pat word rest : jsstring) :
  map canonicalize word = map canonicalize pat ->
  matchIgnoreCase pat (word ++ rest) = Some rest.
Proof.
  revert word; induction pat as [|x pat IH]; intros [|y word]; simpl;
    try discriminate; [reflexivity|].
  intros [= E Hw]. now rewrite E, N.eqb_refl, IH.
Qed.

Lemma dropWhile_removed (p : N -> bool) (s : jsstring) :
  exists l, s = l ++ dropWhile p s /\ forallb p l = true.
Proof.
  induction s as [|c s (l & Hs & Hl)]; [now exists []|]. simpl.
  destruct (p c) eqn:E.
  - exists (c :: l). simpl. now rewrite E, <- Hs.
  - now exists [].
Qed.

(** The matcher decides the language of the pattern. *)
Lemma matchesPlaceholder_spec (s : jsstring) :
  matchesPlaceholder s = true <-> Placeholder s.
Proof.
  unfold matchesPlaceholder, Placeholder. split.
  - destruct (matchIgnoreCase (lit "Channel") s) as [rest|] eqn:E;
      [|discriminate].
    apply matchIgnoreCase_sound in E as (word & -> & Hw).
    rewrite andb_true_iff, negb_true_iff, isEmpty_false. intros [Hne Hd].
    destruct (dropWhile_removed isWhiteSpace rest) as (l & Hr & Hl).
    exists word, l, (dropWhile isWhiteSpace rest).
    rewrite <- Hr. auto.
  - intros (word & spaces & digits & -> & Hw & Hs & Hne & Hd).
    rewrite matchIgnoreCase_complete by exact Hw.
    rewrite dropWhile_all by assumption.
    destruct digits as [|d digits]; [congruence|].
    simpl in Hd. apply andb_true_iff in Hd as [Hd0 Hd].
    assert (Hws : isWhiteSpace d = false).
    { destruct (isWhiteSpace d) eqn:W; [|reflexivity].
      apply whiteSpace_not_digit in W. congruence. }
    simpl dropWhile. rewrite Hws. simpl. now rewrite Hd0, Hd.
Qed.

(** ** Facts about the loop body *)

Lemma assignAttribute_name (key value : jsstring) (c : Channel) :
  name (assignAttribute key value c) = name c.
Proof.
  unfold assignAttribute.
  repeat match goal with |- context [if ?b then _ else _] => destruct b end;
    reflexivity.
Qed.

Lemma assignAttribute_url (key value : jsstring) (c : Channel) :
  url (assignAttribute key value c) = url c.
Proof.
  unfold assignAttribute.
  repeat match goal with |- context [if ?b then _ else _] => destruct b end;
    reflexivity.
Qed.

Lemma extractAttributes_name (s : jsstring) (c : Channel) :
  name (extractAttributes s c) = name c.
Proof.
  rewrite extractAttributes_fold. revert c.
  induction (attributeMatches s) as [|m ms IH]; intros c; [reflexivity|].
  simpl. rewrite IH. apply assignAttribute_name.
Qed.

Lemma extractAttributes_url (s : jsstring) (c : Channel) :
  url (extractAttributes s c) = url c.
Proof.
  rewrite extractAttributes_fold. revert c.
  induction (attributeMatches s) as [|m ms IH]; intros c; [reflexivity|].
  simpl. rewrite IH. apply assignAttribute_url.
Qed.

Lemma normalizeName_nonempty (emitted : nat) (c : Channel) :
  name (normalizeName emitted c) <> [].
Proof.
  unfold normalizeName.
  destruct ((isEmpty (name c) || matchesPlaceholder (name c))
            && negb (isEmpty (tvgName c))) eqn:E.
  - apply andb_true_iff in E as [_ E].
    apply negb_true_iff in E. simpl. rewrite E.
    now apply isEmpty_false.
  - destruct (isEmpty (name c)) eqn:E'; [discriminate|].
    now apply isEmpty_false.
Qed.

Lemma normalizeName_url (emitted : nat) (c : Channel) :
  url (normalizeName emitted c) = url c.
Proof.
  unfold normalizeName.
  repeat match goal with |- context [if ?b then _ else _] => destruct b end;
    reflexivity.
Qed.

(** A metadata directive without a comma after the prefix. *)
Lemma metadata_rejected (st : State) (rawLine rest : jsstring) :
  trim rawLine = lit "#EXTINF:" ++ rest ->
  ~ In COMMA rest ->
  processLine st rawLine =
  mkState (parsedChannels st) None
          (noteSuperseded st ++ [MalformedExtInf (trim rawLine)]).
Proof.
  intros Hline Hno. unfold processLine.
  assert (Hs : startsWith (lit "#EXTINF:") (trim rawLine) = true)
    by (apply startsWith_prefix; eauto).
  rewrite Hs. unfold metadataBranch. rewrite Hline at 1.
  change (substringFrom 8 (lit "#EXTINF:" ++ rest)) with rest.
  rewrite lastIndexOf_absent; [reflexivity|].
  intros H. now apply trim_In in H.
Qed.

(** A metadata directive with a comma after the prefix: [a] is the text
    before the last comma and [b] the text after it. *)
Lemma metadata_accepted (st : State) (rawLine a b : jsstring) :
  trim rawLine = lit "#EXTINF:" ++ a ++ COMMA :: b ->
  ~ In COMMA b ->
  processLine st rawLine =
  mkState (parsedChannels st)
          (Some (normalizeName (length (parsedChannels st))
                   (extractAttributes a
                      (mkChannel (trim b) [] [] [] [] []
                                 (Some (trim rawLine))))))
          (noteSuperseded st).
Proof.
  intros Hline Hno. unfold processLine.
  assert (Hs : startsWith (lit "#EXTINF:") (trim rawLine) = true)
    by (apply startsWith_prefix; eauto).
  assert (Hinfo : trim (substringFrom 8 (trim rawLine))
                  = trimStart a ++ COMMA :: trimEnd b).
  { rewrite Hline.
    change (substringFrom 8 (lit "#EXTINF:" ++ a ++ COMMA :: b))
      with (a ++ COMMA :: b).
    apply trim_around_comma. }
  rewrite Hs. unfold metadataBranch. cbv zeta. rewrite !Hinfo.
  rewrite lastIndexOf_last.
  2:{ intros H. now apply trimEnd_In in H. }
  unfold substringFrom, substringTo.
  replace (length (trimStart a) + 1) with (length (trimStart a ++ [COMMA]))
    by (rewrite length_app; reflexivity).
  replace (trimStart a ++ COMMA :: trimEnd b)
    with ((trimStart a ++ [COMMA]) ++ trimEnd b)
    by (rewrite <- app_assoc; reflexivity).
  rewrite skipn_app, skipn_all, Nat.sub_diag. simpl skipn.
  rewrite <- app_assoc. simpl app.
  rewrite firstn_app, firstn_all, Nat.sub_diag. simpl firstn.
  rewrite app_nil_r, trim_trimEnd, trim_trimStart, extractAttributes_trim.
  reflexivity.
Qed.

Lemma assignAttribute_rawExtInf (key value : jsstring) (c : Channel) :
  rawExtInf (assignAttribute key value c) = rawExtInf c.
Proof.
  unfold assignAttribute.
  repeat match goal with |- context [if ?b then _ else _] => destruct b end;
    reflexivity.
Qed.

Lemma extractAttributes_rawExtInf (s : jsstring) (c : Channel) :
  rawExtInf (extractAttributes s c) = rawExtInf c.
Proof.
  rewrite extractAttributes_fold. revert c.
  induction (attributeMatches s) as [|m ms IH]; intros c; [reflexivity|].
  simpl. rewrite IH. apply assignAttribute_rawExtInf.
Qed.

Lemma normalizeName_rawExtInf (emitted : nat) (c : Channel) :
  rawExtInf (normalizeName emitted c) = rawExtInf c.
Proof.
  unfold normalizeName.
  repeat match goal with |- context [if ?b then _ else _] => destruct b end;
    reflexivity.
Qed.

(** ** Facts about one iteration of the loop *)

Lemma metadataBranch_parsed (st : State) (line : jsstring) :
  parsedChannels (metadataBranch st line) = parsedChannels st.
Proof.
  unfold metadataBranch.
  now destruct (lastIndexOf COMMA (trim (substringFrom 8 line))).
Qed.

Lemma metadataBranch_pending (st : State) (line : jsstring) (c : Channel) :
  currentChannel (metadataBranch st line) = Some c ->
  name c <> [] /\ url c = [] /\ rawExtInf c = Some line.
Proof.
  unfold metadataBranch.
  destruct (lastIndexOf COMMA (trim (substringFrom 8 line)));
    [|discriminate].
  cbn [currentChannel]. intros [= <-]. split; [|split].
  - apply normalizeName_nonempty.
  - now rewrite normalizeName_url, extractAttributes_url.
  - now rewrite normalizeName_rawExtInf, extractAttributes_rawExtInf.
Qed.

Lemma invariant_initial (lines : list jsstring) :
  invariant (initialState lines).
Proof. split; [constructor | discriminate]. Qed.

Lemma invariant_processLine (st : State) (rawLine : jsstring) :
  invariant st -> invariant (processLine st rawLine).
Proof.
  intros [Hp Hc]. unfold processLine.
  destruct (startsWith (lit "#EXTINF:") (trim rawLine)).
  - split.
    + now rewrite metadataBranch_parsed.
    + intros c H. apply metadataBranch_pending in H as (? & ? & E).
      repeat split; auto. now rewrite E.
  - destruct (currentChannel st) as [c|] eqn:Ec.
    + destruct (negb (isEmpty (trim rawLine))
                && negb (startsWith [HASH] (trim rawLine))) eqn:E.
      * apply andb_true_iff in E as [E _].
        apply negb_true_iff, isEmpty_false in E.
        split; [|discriminate]. cbn [parsedChannels].
        apply Forall_app. split; [assumption|].
        constructor; [|constructor].
        destruct (Hc c eq_refl) as (Hn & _). now split.
      * destruct (startsWith [HASH] (trim rawLine)
                  && negb (strictEquals (trim rawLine) (lit "#EXTM3U"))
                  && isEmpty (url c)).
        -- split; [assumption | discriminate].
        -- split; [assumption|]. now rewrite Ec.
    + destruct (negb (isEmpty (trim rawLine))
                && negb (startsWith [HASH] (trim rawLine))) eqn:E.
      * apply andb_true_iff in E as [E _].
        apply negb_true_iff, isEmpty_false in E.
        split; [|discriminate]. cbn [parsedChannels].
        apply Forall_app. split; [assumption|].
        constructor; [|constructor]. split; [discriminate | assumption].
      * split; [assumption|]. now rewrite Ec.
Qed.

Lemma fold_processLine_invariant (lines : list jsstring) (st : State) :
  invariant st -> invariant (fold_left processLine lines st).
Proof.
  revert st. induction lines as [|l lines IH]; intros st H; [exact H|].
  simpl. apply IH. now apply invariant_processLine.
Qed.

Lemma finish_parsed (lines : list jsstring) (st : State) :
  parsedChannels (finish lines st) = parsedChannels st.
Proof. reflexivity. Qed.

Lemma reachable_invariant (st : State) : reachable st -> invariant st.
Proof.
  intros (lines & before & ->).
  apply fold_processLine_invariant, invariant_initial.
Qed.

(** Emitted URLs grow by the trimmed line exactly at content lines. *)
Lemma processLine_urls (st : State) (rawLine : jsstring) :
  map url (parsedChannels (processLine st rawLine)) =
  map url (parsedChannels st)
    ++ (if isContentLine (trim rawLine) then [trim rawLine] else []).
Proof.
  unfold processLine, isContentLine.
  destruct (startsWith (lit "#EXTINF:") (trim rawLine)) eqn:Hm.
  - rewrite metadataBranch_parsed.
    rewrite (extinf_starts_with_hash _ Hm), andb_false_r.
    now rewrite app_nil_r.
  - destruct (currentChannel st) as [c|];
      destruct (negb (isEmpty (trim rawLine))
                && negb (startsWith [HASH] (trim rawLine)));
      cbn [parsedChannels]; rewrite ?map_app, ?app_nil_r; try reflexivity.
    now destruct (startsWith [HASH] (trim rawLine)
                  && negb (strictEquals (trim rawLine) (lit "#EXTM3U"))
                  && isEmpty (url c)).
Qed.

Lemma fold_processLine_urls (lines : list jsstring) (st : State) :
  map url (parsedChannels (fold_left processLine lines st)) =
  map url (parsedChannels st) ++ filter isContentLine (map trim lines).
Proof.
  revert st. induction lines as [|l lines IH]; intros st; simpl.
  - now rewrite app_nil_r.
  - rewrite IH, processLine_urls, <- app_assoc.
    now destruct (isContentLine (trim l)).
Qed.

(** The console only grows, and the loop never prints the header warning. *)
Lemma processLine_console (st : State) (rawLine : jsstring) :
  exists more,
    console (processLine st rawLine) = console st ++ more
    /\ ~ In MissingHeader more.
Proof.
  unfold processLine, metadataBranch, noteSuperseded.
  destruct (startsWith (lit "#EXTINF:") (trim rawLine)).
  - destruct (lastIndexOf COMMA (trim (substringFrom 8 (trim rawLine))));
      destruct (currentChannel st) as [c|]; try destruct (isEmpty (url c));
      cbn [console]; rewrite <- ?app_assoc;
      try (eexists; split; [reflexivity|]; simpl; intuition discriminate);
      exists []; rewrite app_nil_r; auto.
  - destruct (currentChannel st) as [c|];
      repeat match goal with
             | |- context [if ?b then _ else _] => destruct b
             end;
      cbn [console];
      try (eexists; split; [reflexivity|]; simpl; intuition discriminate);
      exists []; rewrite app_nil_r; auto.
Qed.

Lemma fold_processLine_console (lines : list jsstring) (st : State) :
  exists more,
    console (fold_left processLine lines st) = console st ++ more
    /\ ~ In MissingHeader more.
Proof.
  revert st. induction lines as [|l lines IH]; intros st; simpl.
  - exists []. now rewrite app_nil_r.
  - destruct (IH (processLine st l)) as (m2 & E2 & H2).
    destruct (processLine_console st l) as (m1 & E1 & H1).
    exists (m1 ++ m2). rewrite E2, E1, app_assoc. split; [reflexivity|].
    rewrite in_app_iff. tauto.
Qed.

Lemma finish_console (lines : list jsstring) (st : State) :
  exists more,
    console (finish lines st) = console st ++ more
    /\ ~ In MissingHeader more.
Proof.
  unfold finish. cbn [console].
  destruct (currentChannel st) as [c|]; try destruct (isEmpty (url c));
    destruct ((length (parsedChannels st) =? 0) && (1 <? length lines));
    rewrite <- ?app_assoc;
    (eexists; split; [reflexivity|]; simpl; intuition discriminate).
Qed.

(** The header test looks at the first line only. *)
Lemma headerMissing_first_line (lines : list jsstring) :
  headerMissing lines =
  negb (startsWith (lit "#EXTM3U") (trim (hd [] lines))).
Proof.
  unfold headerMissing. destruct (hd [] lines) as [|c s]; reflexivity.
Qed.

(** What is emitted and what is pending do not depend on the console. *)
Lemma processLine_data (st1 st2 : State) (rawLine : jsstring) :
  parsedChannels st1 = parsedChannels st2 ->
  currentChannel st1 = currentChannel st2 ->
  parsedChannels (processLine st1 rawLine)
  = parsedChannels (processLine st2 rawLine)
  /\ currentChannel (processLine st1 rawLine)
     = currentChannel (processLine st2 rawLine).
Proof.
  destruct st1 as [p1 c1 k1], st2 as [p2 c2 k2].
  cbn [parsedChannels currentChannel]. intros -> ->.
  unfold processLine, metadataBranch. cbn [parsedChannels currentChannel].
  destruct (startsWith (lit "#EXTINF:") (trim rawLine)).
  - now destruct (lastIndexOf COMMA (trim (substringFrom 8 (trim rawLine)))).
  - destruct c2 as [c|];
      repeat match goal with
             | |- context [if ?b then _ else _] => destruct b
             end; auto.
Qed.

Lemma fold_processLine_data (lines : list jsstring) (st1 st2 : State) :
  parsedChannels st1 = parsedChannels st2 ->
  currentChannel st1 = currentChannel st2 ->
  parsedChannels (fold_left processLine lines st1)
  = parsedChannels (fold_left processLine lines st2).
Proof.
  revert st1 st2. induction lines as [|l lines IH]; intros st1 st2 Hp Hc.
  - exact Hp.
  - simpl. destruct (processLine_data st1 st2 l Hp Hc). now apply IH.
Qed.

Lemma processLine_appends (st : State) (rawLine : jsstring) :
  exists more,
    parsedChannels (processLine st rawLine) = parsedChannels st ++ more.
Proof.
  unfold processLine.
  destruct (startsWith (lit "#EXTINF:") (trim rawLine)).
  - exists []. now rewrite metadataBranch_parsed, app_nil_r.
  - destruct (currentChannel st) as [c|];
      repeat match goal with
             | |- context [if ?b then _ else _] => destruct b
             end;
      cbn [parsedChannels]; try (eexists; reflexivity);
      exists []; now rewrite app_nil_r.
Qed.

Lemma fold_processLine_appends (lines : list jsstring) (st : State) :
  exists more,
    parsedChannels (fold_left processLine lines st)
    = parsedChannels st ++ more.
Proof.
  revert st. induction lines as [|l lines IH]; intros st; simpl.
  - exists []. now rewrite app_nil_r.
  - destruct (IH (processLine st l)) as (m2 & ->).
    destruct (processLine_appends st l) as (m1 & ->).
    exists (m1 ++ m2). now rewrite app_assoc.
Qed.

(** * The properties of the specification *)

(** ** The test of the repository and the scenarios of the specification *)

Example jest_sample :
  parseM3U
    (joinLines
       [lit "#EXTM3U";
        lit "#EXTINF:-1 tvg-id=" ++ quoted "abc"
          ++ lit " tvg-name=" ++ quoted "ABC"
          ++ lit " tvg-logo=" ++ quoted "logo.png"
          ++ lit " group-title=" ++ quoted "News" ++ lit ",ABC News";
        lit "http://example.com/stream1.m3u8";
        lit "#EXTINF:-1,No attributes";
        lit "http://example.com/stream2.ts"])
  = [mkChannel (lit "ABC News") (lit "abc") (lit "ABC") (lit "logo.png")
               (lit "News") (lit "http://example.com/stream1.m3u8") None;
     mkChannel (lit "No attributes") [] [] [] []
               (lit "http://example.com/stream2.ts") None].
Proof. vm_compute. reflexivity. Qed.

Example scenario_malformed_directive :
  parseM3U (joinLines [lit "#EXTINF:-1 no comma here"; lit "http://x/y"])
  = [mkChannel (lit "Channel 1") [] [] [] [] (lit "http://x/y") None].
Proof. vm_compute. reflexivity. Qed.

Example scenario_bare_url :
  parseM3U (lit "http://bare.url/stream")
  = [mkChannel (lit "Channel 1") [] [] [] []
               (lit "http://bare.url/stream") None].
Proof. vm_compute. reflexivity. Qed.

Example scenario_superseded_placeholder :
  let m3uText :=
    joinLines
      [lit "#EXTINF:-1,Channel 5";
       lit "#EXTINF:-1 tvg-name=" ++ quoted "Real Name" ++ lit ",Channel 5";
       lit "http://x"] in
  parseM3U m3uText
  = [mkChannel (lit "Real Name") [] (lit "Real Name") [] [] (lit "http://x")
               None]
  /\ diagnostics m3uText
     = [MissingHeader; DiscardingPrevious (lit "Channel 5")].
Proof. vm_compute. split; reflexivity. Qed.

(** ** C1: emitted records have a name and a URL *)

(** C1. For every input string, every record in the sequence returned by
    [parseM3U] has a non-empty [name] and a non-empty [url]. *)
Theorem parseM3U_records_have_name_and_url (m3uText : jsstring) :
  Forall (fun c => name c <> [] /\ url c <> []) (parseM3U m3uText).
Proof.
  unfold parseM3U, run. rewrite finish_parsed.
  apply (fold_processLine_invariant (split LF m3uText)).
  apply invariant_initial.
Qed.

(** ** C2: output order is completion order *)

(** C2. For every input, the records come out in the order in which their
    URL lines occur in the text: the URLs of the output, in order, are the
    content lines of the text, in order, one record for each; and the loop
    only ever appends, so what is emitted after any prefix of the lines
    stays in front of what is emitted later. Metadata directives play no
    part in the order. *)
Theorem parseM3U_completion_order (m3uText : jsstring) :
  map url (parseM3U m3uText)
  = filter isContentLine (map trim (split LF m3uText))
  /\ (forall before after st,
        exists later,
          parsedChannels (fold_left processLine (before ++ after) st)
          = parsedChannels (fold_left processLine before st) ++ later).
Proof.
  split.
  - unfold parseM3U, run. rewrite finish_parsed.
    now rewrite fold_processLine_urls.
  - intros before after st. rewrite fold_left_app.
    apply fold_processLine_appends.
Qed.

Example interleaved_with_other_directives :
  parseM3U
    (joinLines
       [lit "#EXTM3U";
        lit "#EXTINF:-1,One";
        lit "#EXTVLCOPT:network-caching=1000";
        lit "http://a";
        lit "#EXTINF:-1,Two";
        [];
        lit "http://b"])
  = [mkChannel (lit "Channel 1") [] [] [] [] (lit "http://a") None;
     mkChannel (lit "Two") [] [] [] [] (lit "http://b") None].
Proof. vm_compute. reflexivity. Qed.

(** ** C3: the empty string *)

(** C3, as stated, fails: parsing the empty string does print a
    diagnostic, the header warning. *)
Lemma empty_string_is_not_silent :
  ~ (parseM3U [] = [] /\ diagnostics [] = []).
Proof. vm_compute. intros [_ H]. discriminate H. Qed.

(** C3, amended. Parsing the empty string returns the empty record
    sequence and prints exactly one diagnostic, the missing-header warning;
    the warning about an empty result is not printed. *)
Theorem empty_string_warns_about_header_only :
  parseM3U [] = [] /\ diagnostics [] = [MissingHeader].
Proof. vm_compute. split; reflexivity. Qed.

(** ** C4: the missing-header diagnostic *)

(** C4, as stated, fails: after a leading blank line the first non-blank
    line is the header, and the warning is printed all the same. *)
Lemma header_after_blank_line_still_warns :
  ~ (In MissingHeader (diagnostics blankThenHeader)
     <-> firstNonBlankIsHeader blankThenHeader = false).
Proof.
  vm_compute. intros [H _].
  assert (E : true = false) by (apply H; auto).
  discriminate E.
Qed.

(** C4, amended. The missing-header diagnostic is printed if and only if
    the first line of the text, trimmed, does not start with the
    playlist-start marker (an empty or blank first line does not); and the
    records returned are those the loop computes whatever the header test
    said. *)
Theorem missing_header_tests_first_line (m3uText : jsstring) :
  (In MissingHeader (diagnostics m3uText)
   <-> startsWith (lit "#EXTM3U") (trim (hd [] (split LF m3uText))) = false)
  /\ parseM3U m3uText
     = parsedChannels
         (fold_left processLine (split LF m3uText) (mkState [] None [])).
Proof.
  split.
  - unfold diagnostics, run. rewrite filter_In.
    destruct (finish_console (split LF m3uText)
                (fold_left processLine (split LF m3uText)
                   (initialState (split LF m3uText)))) as (m2 & -> & H2).
    destruct (fold_processLine_console (split LF m3uText)
                (initialState (split LF m3uText))) as (m1 & -> & H1).
    unfold initialState. cbn [console].
    rewrite headerMissing_first_line.
    destruct (startsWith (lit "#EXTM3U") (trim (hd [] (split LF m3uText))));
      cbn [negb]; rewrite !in_app_iff; simpl.
    + split; [|discriminate].
      intros [[[[H|[]]|H]|H] _]; [discriminate | tauto | tauto].
    + split; [reflexivity|]. intros _.
      split; [|reflexivity]. left. left. right. left. reflexivity.
  - unfold parseM3U, run. rewrite finish_parsed.
    now apply fold_processLine_data.
Qed.

(** ** C5: the split at the last comma *)

(** C5. For every metadata directive line, the text after the prefix is
    split at its last comma: with [a] the text before that comma and [b]
    the text after it, the provisional display name is [b] trimmed and the
    attribute block is [a]; the pending channel is the one extracted from
    them. If the text after the prefix has no comma, the directive is
    skipped with a diagnostic: nothing is emitted and no channel is
    pending. A text with a comma always splits this way, so the two cases
    cover every directive. *)
Theorem metadata_split_at_last_comma
  (st : State) (rawLine rest : jsstring) :
  trim rawLine = lit "#EXTINF:" ++ rest ->
  (In COMMA rest -> exists a b, rest = a ++ COMMA :: b /\ ~ In COMMA b)
  /\ (forall a b,
      rest = a ++ COMMA :: b -> ~ In COMMA b ->
      processLine st rawLine =
      mkState (parsedChannels st)
              (Some (normalizeName (length (parsedChannels st))
                       (extractAttributes a
                          (mkChannel (trim b) [] [] [] [] []
                                     (Some (trim rawLine))))))
              (noteSuperseded st))
  /\ (~ In COMMA rest ->
      processLine st rawLine =
      mkState (parsedChannels st) None
              (noteSuperseded st ++ [MalformedExtInf (trim rawLine)])).
Proof.
  intros Hline. split; [|split].
  - apply last_occurrence_split.
  - intros a b -> Hb. now apply metadata_accepted.
  - intros Hno. now apply (metadata_rejected st rawLine rest).
Qed.

Lemma metadata_split_at_last_comma_witness :
  trim directiveWithTvgName
  = lit "#EXTINF:" ++ lit "-1 tvg-name=" ++ quoted "Real Name"
      ++ lit ",Channel 5"
  /\ processLine (stateAfter [lit "#EXTM3U"]) directiveWithTvgName
     = mkState []
         (Some (mkChannel (lit "Real Name") [] (lit "Real Name") [] [] []
                          (Some directiveWithTvgName)))
         [StartingParse].
Proof.
  split; [reflexivity|].
  refine (eq_trans
            (proj1 (proj2 (metadata_split_at_last_comma
                             (stateAfter [lit "#EXTM3U"])
                             directiveWithTvgName
                             (lit "-1 tvg-name=" ++ quoted "Real Name"
                                ++ lit ",Channel 5")
                             eq_refl))
               (lit "-1 tvg-name=" ++ quoted "Real Name") (lit "Channel 5")
               eq_refl _)
            _).
  - vm_compute. intuition discriminate.
  - vm_compute. reflexivity.
Defined.

(** ** C6: the name fallback chain *)

Lemma normalizeName_name (emitted : nat) (c : Channel) :
  name (normalizeName emitted c) =
  if (isEmpty (name c) || matchesPlaceholder (name c))
     && negb (isEmpty (tvgName c))
  then tvgName c
  else if isEmpty (name c)
       then lit "Unnamed Channel " ++ numberToString (emitted + 1)
       else name c.
Proof.
  unfold normalizeName.
  destruct ((isEmpty (name c) || matchesPlaceholder (name c))
            && negb (isEmpty (tvgName c))) eqn:E.
  - apply andb_true_iff in E as [_ E]. apply negb_true_iff in E.
    cbn [name setName]. now rewrite E.
  - now destruct (isEmpty (name c)).
Qed.

(** C6, as stated, fails: a name made of the word directly followed by
    digits, with no white space between them, does not match the pattern
    as the claim words it, so the explicit name should win; the parser
    replaces it by the [tvg-name] attribute. *)
Lemma placeholder_without_space_is_replaced :
  placeholderAsStated (lit "Channel5") = false
  /\ map name (parseM3U playlistNoSpace) = [lit "X"]
  /\ map name (parseM3U playlistNoSpace)
     <> [nameAsStated 0 (mkChannel (lit "Channel5") [] (lit "X") [] [] []
                                   (Some directiveNoSpace))].
Proof. vm_compute. repeat split; try reflexivity. discriminate. Qed.

(** C6, amended. Name normalization on a metadata directive follows this
    chain, where the placeholder pattern is the word Channel in any case,
    then any number of white space characters, possibly none, then one or
    more digits, and nothing else: if the provisional name is empty or
    matches the pattern, and a non-empty [tvg-name] was extracted, the name
    is the [tvg-name]; if the provisional name is empty and no [tvg-name]
    was extracted, the name is [Unnamed Channel n] with [n] the number of
    channels already emitted plus one; otherwise the explicit name wins. *)
Theorem name_fallback_chain (st : State) (rawLine a b : jsstring) :
  trim rawLine = lit "#EXTINF:" ++ a ++ COMMA :: b ->
  ~ In COMMA b ->
  let provisional := trim b in
  let extracted :=
    extractAttributes a
      (mkChannel provisional [] [] [] [] [] (Some (trim rawLine))) in
  exists c,
    currentChannel (processLine st rawLine) = Some c
    /\ ((provisional = [] \/ Placeholder provisional) ->
        tvgName extracted <> [] ->
        name c = tvgName extracted)
    /\ (provisional = [] -> tvgName extracted = [] ->
        name c = lit "Unnamed Channel "
                   ++ numberToString (length (parsedChannels st) + 1))
    /\ (provisional <> [] ->
        ~ Placeholder provisional \/ tvgName extracted = [] ->
        name c = provisional).
Proof.
  intros Hline Hb provisional extracted.
  rewrite (metadata_accepted st rawLine a b Hline Hb).
  fold provisional extracted.
  eexists. split; [reflexivity|].
  rewrite normalizeName_name.
  assert (Hn : name extracted = provisional)
    by apply extractAttributes_name.
  rewrite Hn.
  destruct (matchesPlaceholder provisional) eqn:Hp.
  - apply matchesPlaceholder_spec in Hp.
    rewrite orb_true_r. cbn [andb].
    destruct (isEmpty (tvgName extracted)) eqn:Ht; cbn [negb].
    + apply isEmpty_true in Ht.
      repeat split; try congruence.
      * intros E _. rewrite E. reflexivity.
      * intros Hne _. apply isEmpty_false in Hne. now rewrite Hne.
    + apply isEmpty_false in Ht.
      repeat split; try congruence; tauto.
  - assert (Hnp : ~ Placeholder provisional).
    { intros H. apply matchesPlaceholder_spec in H. congruence. }
    rewrite orb_false_r.
    destruct (isEmpty provisional) eqn:He; cbn [andb].
    + apply isEmpty_true in He.
      destruct (isEmpty (tvgName extracted)) eqn:Ht; cbn [negb].
      * apply isEmpty_true in Ht. repeat split; congruence.
      * apply isEmpty_false in Ht. repeat split; congruence.
    + apply isEmpty_false in He.
      repeat split; try congruence; tauto.
Qed.

Lemma name_fallback_chain_witness :
  trim directiveNoSpace
  = lit "#EXTINF:" ++ (lit "-1 tvg-name=" ++ quoted "X") ++ COMMA
      :: lit "Channel5"
  /\ ~ In COMMA (lit "Channel5")
  /\ exists c,
      currentChannel (processLine (stateAfter [lit "#EXTM3U"])
                        directiveNoSpace) = Some c
      /\ name c = lit "X".
Proof.
  assert (Hb : ~ In COMMA (lit "Channel5"))
    by (vm_compute; intuition discriminate).
  split; [reflexivity|]. split; [exact Hb|].
  destruct (name_fallback_chain (stateAfter [lit "#EXTM3U"])
              directiveNoSpace
              (lit "-1 tvg-name=" ++ quoted "X") (lit "Channel5")
              eq_refl Hb)
    as (c & Hc & Htvg & _ & _).
  exists c. split; [exact Hc|].
  rewrite Htvg.
  - reflexivity.
  - right. apply matchesPlaceholder_spec. reflexivity.
  - vm_compute. discriminate.
Defined.

(** ** C7: when a pending channel is discarded *)

(** The four kinds of trimmed line the loop tells apart. *)
Lemma line_kinds (line : jsstring) :
  startsWith (lit "#EXTINF:") line = true
  \/ (startsWith (lit "#EXTINF:") line = false
      /\ startsWith [HASH] line = true /\ line <> lit "#EXTM3U")
  \/ isContentLine line = true
  \/ (line = [] \/ line = lit "#EXTM3U").
Proof.
  unfold isContentLine.
  destruct (startsWith (lit "#EXTINF:") line); [now left|].
  destruct line as [|c s]; [right; right; right; now left|].
  cbn [isEmpty negb andb].
  destruct (startsWith [HASH] (c :: s)); [|right; right; now left].
  destruct (strictEquals (c :: s) (lit "#EXTM3U")) eqn:E.
  - apply strictEquals_eq in E. right; right; right; now right.
  - apply strictEquals_neq in E. right; left. auto.
Qed.

(** A channel that is pending never has a URL: it gets one only when it is
    emitted. *)
Lemma pending_has_no_url (st : State) (c : Channel) :
  reachable st -> currentChannel st = Some c -> url c = [].
Proof.
  intros Hr Hc. apply reachable_invariant in Hr as [_ Hp].
  now destruct (Hp c Hc) as (_ & Hu & _).
Qed.

(** C7. A pending channel without URL meets one of four fates at the next
    line. At a metadata directive it is discarded with a diagnostic: nothing
    is emitted, and the channel pending afterwards is the one the directive
    alone gives. At any other line that starts with the sigil and is not the
    header it is discarded with a diagnostic and nothing is pending. At a
    content line it is completed and emitted, without diagnostic. At a blank
    line or the header line nothing changes. At the end of the input it is
    dropped with a diagnostic and the output is what was emitted before.
    So it is discarded in these three situations only, and a discard never
    adds to the output. *)
Theorem pending_channel_fate (st : State) (c : Channel) (rawLine : jsstring) :
  currentChannel st = Some c ->
  url c = [] ->
  let line := trim rawLine in
  let st' := processLine st rawLine in
  let forgotten := mkState (parsedChannels st) None (console st) in
  ((startsWith (lit "#EXTINF:") line = true
    /\ (exists more,
          console st' = console st ++ DiscardingPrevious (name c) :: more)
    /\ parsedChannels st' = parsedChannels st
    /\ currentChannel st' = currentChannel (processLine forgotten rawLine))
   \/ (startsWith (lit "#EXTINF:") line = false
       /\ startsWith [HASH] line = true /\ line <> lit "#EXTM3U"
       /\ st' = mkState (parsedChannels st) None
                  (console st ++ [DirectiveBeforeUrl line (name c)]))
   \/ (isContentLine line = true
       /\ st' = mkState (parsedChannels st ++ [finalize line c]) None
                  (console st))
   \/ ((line = [] \/ line = lit "#EXTM3U") /\ st' = st))
  /\ (forall lines,
        parsedChannels (finish lines st) = parsedChannels st
        /\ exists more,
            console (finish lines st)
            = console st ++ MissingUrlAtEOF (rawExtInf c) :: more).
Proof.
  intros Hc Hu line st' forgotten. split.
  - destruct (line_kinds line) as [Hm | [(Hm & Hh & Hne) | [Hcont | Hbh]]].
    + left. split; [assumption|]. subst st'. unfold processLine.
      fold line. rewrite Hm. split; [|split].
      * unfold metadataBranch, noteSuperseded. rewrite Hc, Hu.
        cbn [isEmpty].
        destruct (lastIndexOf COMMA (trim (substringFrom 8 line)));
          cbn [console]; rewrite <- ?app_assoc; eexists; reflexivity.
      * apply metadataBranch_parsed.
      * unfold forgotten, metadataBranch. cbn [parsedChannels].
        now destruct (lastIndexOf COMMA (trim (substringFrom 8 line))).
    + right; left. repeat (split; [assumption|]).
      subst st'. unfold processLine. fold line. rewrite Hm, Hc, Hh, Hu.
      apply strictEquals_neq in Hne. rewrite Hne.
      cbn [isEmpty negb andb]. now rewrite andb_false_r.
    + right; right; left. split; [assumption|].
      subst st'. unfold processLine. fold line.
      unfold isContentLine in Hcont.
      destruct (startsWith (lit "#EXTINF:") line) eqn:Hm.
      * rewrite (extinf_starts_with_hash _ Hm), andb_false_r in Hcont.
        discriminate.
      * now rewrite Hc, Hcont.
    + right; right; right. split; [assumption|].
      subst st'. unfold processLine. fold line.
      destruct Hbh as [-> | ->]; cbn; rewrite Hc; now destruct st.
  - intros lines. split; [reflexivity|].
    unfold finish. cbn [console]. rewrite Hc, Hu. cbn [isEmpty].
    destruct ((length (parsedChannels st) =? 0) && (1 <? length lines));
      rewrite <- ?app_assoc; eexists; reflexivity.
Qed.

Lemma pending_channel_fate_witness :
  currentChannel pendingA = Some channelA
  /\ url channelA = []
  /\ processLine pendingA (lit "#EXTVLCOPT:x")
     = mkState [] None
         [StartingParse;
          DirectiveBeforeUrl (lit "#EXTVLCOPT:x") (lit "A")].
Proof.
  split; [reflexivity|]. split; [reflexivity|].
  destruct (pending_channel_fate pendingA channelA (lit "#EXTVLCOPT:x")
              eq_refl eq_refl) as [[H | [H | [H | H]]] _].
  - destruct H as (H & _). vm_compute in H. discriminate H.
  - destruct H as (_ & _ & _ & H). rewrite H. vm_compute. reflexivity.
  - destruct H as (H & _). vm_compute in H. discriminate H.
  - destruct H as ([H | H] & _); vm_compute in H; discriminate H.
Defined.

(** ** C8: a URL without metadata *)

(** C8. When a content line is met with no pending channel, a diagnostic
    is printed and a minimal record is appended directly: its name is
    [Channel n] with [n] the number of channels already emitted plus one,
    its URL is the line, and its other fields are empty. No channel is
    pending afterwards. *)
Theorem bare_url_synthesizes_record (st : State) (rawLine : jsstring) :
  currentChannel st = None ->
  isContentLine (trim rawLine) = true ->
  processLine st rawLine =
  mkState
    (parsedChannels st
       ++ [mkChannel
             (lit "Channel " ++ numberToString (length (parsedChannels st) + 1))
             [] [] [] [] (trim rawLine) None])
    None
    (console st ++ [UrlWithoutExtInf (trim rawLine)]).
Proof.
  intros Hc Hcont. unfold processLine.
  unfold isContentLine in Hcont.
  destruct (startsWith (lit "#EXTINF:") (trim rawLine)) eqn:Hm.
  - rewrite (extinf_starts_with_hash _ Hm), andb_false_r in Hcont.
    discriminate.
  - now rewrite Hc, Hcont.
Qed.

Lemma bare_url_synthesizes_record_witness :
  currentChannel (stateAfter []) = None
  /\ isContentLine (trim (lit "http://bare.url/stream")) = true
  /\ processLine (stateAfter []) (lit "http://bare.url/stream")
     = mkState
         [mkChannel (lit "Channel 1") [] [] [] []
                    (lit "http://bare.url/stream") None]
         None
         [StartingParse; MissingHeader;
          UrlWithoutExtInf (lit "http://bare.url/stream")].
Proof.
  split; [reflexivity|]. split; [reflexivity|].
  exact (bare_url_synthesizes_record (stateAfter [])
           (lit "http://bare.url/stream") eq_refl eq_refl).
Defined.

(** ** C9: attribute keys *)

Lemma sameLetter_lowerChar (x y : N) :
  isUpperLetter y = false -> sameLetter x y = (lowerChar x =? y)%N.
Proof.
  intros Hy. unfold sameLetter, lowerChar. rewrite Hy.
  cbn [andb]. rewrite orb_false_r.
  fold (isUpperLetter x). destruct (isUpperLetter x) eqn:Hx; cbn [andb].
  - destruct (N.eqb_spec x y) as [->|]; [congruence | reflexivity].
  - now rewrite orb_false_r.
Qed.

(** Comparing a key with a lower-case word ignoring case is comparing the
    lower-cased key with the word. *)
Lemma equalsIgnoringCase_toLowerCase (key word : jsstring) :
  forallb (fun y => negb (isUpperLetter y)) word = true ->
  equalsIgnoringCase key word = strictEquals (toLowerCase key) word.
Proof.
  revert key. induction word as [|y word IH]; intros [|x key] Hw;
    try reflexivity.
  cbn [forallb] in Hw. apply andb_true_iff in Hw as [Hy Hw].
  apply negb_true_iff in Hy.
  cbn [equalsIgnoringCase toLowerCase map strictEquals].
  now rewrite sameLetter_lowerChar, (IH key Hw).
Qed.

Lemma assignAttribute_ignores_case (key value : jsstring) (c : Channel) :
  assignAttribute (toLowerCase key) value c
  = assignIgnoringCase c (key, value).
Proof.
  unfold assignAttribute, assignIgnoringCase. cbn [fst snd].
  rewrite !equalsIgnoringCase_toLowerCase by reflexivity.
  repeat match goal with
         | |- context [strictEquals (toLowerCase key) ?k] =>
             destruct (strictEquals (toLowerCase key) k)
         end; reflexivity.
Qed.

(** An attempt of the pattern succeeds exactly on the texts that begin
    with an attribute. *)
Lemma attributeAt_none (t : jsstring) :
  attributeAt t = None <-> ~ startsWithAttribute t.
Proof.
  split.
  - intros H (k & v & r & Hk & Hkc & Hv & ->).
    rewrite (attributeAt_complete k v r Hk Hkc Hv) in H. discriminate H.
  - intros H. destruct (attributeAt t) as [[[k v] r]|] eqn:E; [|reflexivity].
    exfalso. apply H.
    apply attributeAt_sound in E as (-> & Hk & Hkc & Hv).
    now exists k, v, r.
Qed.

Lemma attributeExec_none (s : jsstring) :
  attributeExec s = None <-> (forall p q, s = p ++ q -> attributeAt q = None).
Proof.
  induction s as [|c s IH].
  - split; [|reflexivity]. intros _ p q H.
    symmetry in H. apply app_eq_nil in H as [_ ->]. reflexivity.
  - cbn [attributeExec]. split.
    + destruct (attributeAt (c :: s)) eqn:E; [discriminate|].
      intros H p q Hs. destruct p as [|c' p].
      * simpl in Hs. now subst q.
      * injection Hs as _ Hs. now apply (proj1 IH H p q).
    + intros H. rewrite (H [] (c :: s) eq_refl).
      apply IH. intros p q Hs. apply (H (c :: p) q). now rewrite Hs.
Qed.

(** [exec] finds the leftmost attribute. *)
Lemma attributeExec_leftmost (skipped t : jsstring)
  (m : jsstring * jsstring * jsstring) :
  (forall p q, skipped = p ++ q -> q <> [] -> attributeAt (q ++ t) = None) ->
  attributeAt t = Some m ->
  attributeExec (skipped ++ t) = Some m.
Proof.
  intros Hsk Ht. induction skipped as [|c sk IH].
  - now apply attributeExec_at.
  - change ((c :: sk) ++ t) with (c :: (sk ++ t)). cbn [attributeExec].
    change (c :: (sk ++ t)) with ((c :: sk) ++ t).
    rewrite (Hsk [] (c :: sk) eq_refl) by discriminate.
    apply IH. intros p q Hs Hq. apply (Hsk (c :: p) q); [|assumption].
    now rewrite Hs.
Qed.

Lemma attributeExec_found (s key value rest : jsstring) :
  attributeExec s = Some (key, value, rest) ->
  exists skipped,
    s = skipped ++ key ++ [EQUALS; QUOTE] ++ value ++ QUOTE :: rest
    /\ key <> [] /\ forallb isKeyChar key = true
    /\ forallb notQuote value = true
    /\ (forall p q,
           skipped = p ++ q -> q <> [] ->
           attributeAt
             (q ++ key ++ [EQUALS; QUOTE] ++ value ++ QUOTE :: rest)
           = None).
Proof.
  induction s as [|c s IH]; [discriminate|].
  cbn [attributeExec].
  destruct (attributeAt (c :: s)) as [m|] eqn:E.
  - intros [= ->].
    apply attributeAt_sound in E as (Hs & Hk & Hkc & Hv).
    exists []. repeat split; try assumption.
    intros p q Hpq Hq. symmetry in Hpq.
    apply app_eq_nil in Hpq as [_ ->]. congruence.
  - intros H. destruct (IH H) as (sk & Hs & Hk & Hkc & Hv & Hleft).
    exists (c :: sk). repeat split; try assumption.
    + now rewrite Hs.
    + intros p q Hpq Hq. destruct p as [|c' p].
      * simpl in Hpq. subst q. rewrite <- app_comm_cons, <- Hs. exact E.
      * injection Hpq as _ Hpq. now apply (Hleft p q).
Qed.

(** The matches the loop sees are the matches of the pattern. *)
Lemma attributeMatches_are_PatternMatches (s : jsstring) :
  PatternMatches s (attributeMatches s).
Proof.
  induction s as [s IH] using by_length.
  rewrite attributeMatches_unfold.
  destruct (attributeExec s) as [[[k v] rest]|] eqn:E.
  - pose proof (attributeExec_shorter _ _ _ _ E) as Hlen.
    apply attributeExec_found in E as (sk & -> & Hk & Hkc & Hv & Hleft).
    apply NextMatch; try assumption.
    + intros p q Hpq Hq. apply attributeAt_none. now apply (Hleft p q).
    + now apply IH.
  - apply NoMoreMatch. intros p q Hpq. apply attributeAt_none.
    now apply (proj1 (attributeExec_none s) E p q).
Qed.

Lemma extractAttributes_PatternMatches
  (s : jsstring) (ms : list (jsstring * jsstring)) :
  PatternMatches s ms ->
  forall c, extractAttributes s c = fold_left assignIgnoringCase ms c.
Proof.
  induction 1 as [s Hnone | sk k v rest ms Hk Hkc Hv Hleft _ IH]; intros c.
  - rewrite extractAttributes_unfold.
    assert (E : attributeExec s = None).
    { apply attributeExec_none. intros p q Hpq.
      apply attributeAt_none. now apply (Hnone p q). }
    now rewrite E.
  - rewrite extractAttributes_unfold.
    rewrite (attributeExec_leftmost sk _ (k, v, rest)).
    + cbn [fold_left]. now rewrite IH, assignAttribute_ignores_case.
    + intros p q Hpq Hq. apply attributeAt_none. now apply (Hleft p q).
    + now apply attributeAt_complete.
Qed.

(** C9. Attribute keys are matched without regard to case. Every attribute
    block has its matches of the pattern (the leftmost attribute, then the
    leftmost one after it, and so on), and whatever block and channel, the
    channel after extraction is the channel after these matches, in order,
    where a key that is [tvg-id], [tvg-name], [tvg-logo] or [group-title]
    in any mix of upper and lower case sets [tvgId], [tvgName], [logo] or
    [group] to the value, and any other key changes nothing. *)
Theorem attribute_keys_case_insensitive :
  (forall s, exists ms, PatternMatches s ms)
  /\ (forall s ms c,
         PatternMatches s ms ->
         extractAttributes s c = fold_left assignIgnoringCase ms c).
Proof.
  split.
  - intros s. exists (attributeMatches s).
    apply attributeMatches_are_PatternMatches.
  - intros s ms c H. now apply extractAttributes_PatternMatches.
Qed.

Lemma attribute_keys_case_insensitive_witness :
  PatternMatches mixedCaseBlock
    [(lit "TVG-ID", lit "x"); (lit "catchup", lit "1");
     (lit "Group-Title", lit "News")]
  /\ extractAttributes mixedCaseBlock emptyChannel
     = mkChannel [] (lit "x") [] [] (lit "News") [] None.
Proof.
  assert (H : PatternMatches mixedCaseBlock
                [(lit "TVG-ID", lit "x"); (lit "catchup", lit "1");
                 (lit "Group-Title", lit "News")])
    by exact (attributeMatches_are_PatternMatches mixedCaseBlock).
  split; [exact H|].
  exact (proj2 attribute_keys_case_insensitive mixedCaseBlock _
           emptyChannel H).
Defined.

Example unknown_key_is_ignored :
  extractAttributes
    (lit "catchup=" ++ quoted "1" ++ lit " tvg-id=" ++ quoted "abc")
    emptyChannel
  = setTvgId (lit "abc") emptyChannel.
Proof. vm_compute. reflexivity. Qed.

(** ** C10: a key given twice *)

Section FieldKeptByOtherKeys.

Variable field : Channel -> jsstring.
Variable fieldKey : jsstring.
Hypothesis other_keys_keep :
  forall key value c,
    key <> fieldKey -> field (assignAttribute key value c) = field c.

Lemma fold_assignMatch_keeps (ms : list (jsstring * jsstring))
  (c : Channel) :
  Forall (fun m => toLowerCase (fst m) <> fieldKey) ms ->
  field (fold_left assignMatch ms c) = field c.
Proof.
  intros H. revert c. induction H as [|m ms Hm _ IH]; intros c;
    [reflexivity|].
  simpl. rewrite IH. now apply other_keys_keep.
Qed.

End FieldKeptByOtherKeys.

Ltac other_key :=
  intros key value c Hne; unfold assignAttribute;
  repeat match goal with
         | |- context [strictEquals key ?k] =>
             let E := fresh "E" in
             destruct (strictEquals key k) eqn:E;
             [apply strictEquals_eq in E; try congruence; try reflexivity|]
         end;
  reflexivity.

Lemma tvgId_other_key key value c :
  key <> lit "tvg-id" -> tvgId (assignAttribute key value c) = tvgId c.
Proof. revert key value c. other_key. Qed.

Lemma tvgName_other_key key value c :
  key <> lit "tvg-name" -> tvgName (assignAttribute key value c) = tvgName c.
Proof. revert key value c. other_key. Qed.

Lemma logo_other_key key value c :
  key <> lit "tvg-logo" -> logo (assignAttribute key value c) = logo c.
Proof. revert key value c. other_key. Qed.

Lemma group_other_key key value c :
  key <> lit "group-title" -> group (assignAttribute key value c) = group c.
Proof. revert key value c. other_key. Qed.

(** C10. If the same recognized key occurs more than once in the attribute
    block of a metadata directive, the value of its last occurrence is the
    one the field holds: whenever a match with that key, in any case, has
    no later match with the same key, its value is the value of the
    field. *)
Theorem last_occurrence_wins
  (s : jsstring) (c : Channel)
  (before after : list (jsstring * jsstring)) (key value : jsstring) :
  attributeMatches s = before ++ (key, value) :: after ->
  Forall (fun m => toLowerCase (fst m) <> toLowerCase key) after ->
  (toLowerCase key = lit "tvg-id" ->
   tvgId (extractAttributes s c) = value)
  /\ (toLowerCase key = lit "tvg-name" ->
      tvgName (extractAttributes s c) = value)
  /\ (toLowerCase key = lit "tvg-logo" ->
      logo (extractAttributes s c) = value)
  /\ (toLowerCase key = lit "group-title" ->
      group (extractAttributes s c) = value).
Proof.
  intros Hs Hafter.
  assert (E : extractAttributes s c
              = fold_left assignMatch after
                  (assignAttribute (toLowerCase key) value
                     (fold_left assignMatch before c))).
  { now rewrite extractAttributes_fold, Hs, fold_left_app. }
  rewrite E. clear E Hs.
  repeat split; intros Hk; rewrite Hk in *.
  - rewrite (fold_assignMatch_keeps tvgId (lit "tvg-id") tvgId_other_key);
      [reflexivity | assumption].
  - rewrite (fold_assignMatch_keeps tvgName (lit "tvg-name")
               tvgName_other_key); [reflexivity | assumption].
  - rewrite (fold_assignMatch_keeps logo (lit "tvg-logo") logo_other_key);
      [reflexivity | assumption].
  - rewrite (fold_assignMatch_keeps group (lit "group-title")
               group_other_key); [reflexivity | assumption].
Qed.

Lemma last_occurrence_wins_witness :
  attributeMatches repeatedKeyBlock
  = [(lit "tvg-id", lit "a")] ++ (lit "TVG-ID", lit "b") :: []
  /\ Forall (fun m : jsstring * jsstring =>
               toLowerCase (fst m) <> toLowerCase (lit "TVG-ID")) []
  /\ tvgId (extractAttributes repeatedKeyBlock emptyChannel) = lit "b".
Proof.
  split; [reflexivity|]. split; [constructor|].
  exact (proj1 (last_occurrence_wins repeatedKeyBlock emptyChannel
                  [(lit "tvg-id", lit "a")] [] (lit "TVG-ID") (lit "b")
                  eq_refl (Forall_nil _))
           eq_refl).
Defined.

(** * Further properties of the parser *)

(** ** White space around lines and line endings *)

Lemma trim_idem (s : jsstring) : trim (trim s) = trim s.
Proof.
  unfold trim at 2. now rewrite trim_trimEnd, trim_trimStart.
Qed.

Lemma trimEnd_app_whiteSpace (s w : jsstring) :
  forallb isWhiteSpace w = true -> trimEnd (s ++ w) = trimEnd s.
Proof.
  intros Hw. induction s as [|c s IH].
  - simpl app. now apply trimEnd_nil_all.
  - simpl app. now rewrite !trimEnd_cons, IH.
Qed.

Lemma trim_app_whiteSpace (s w : jsstring) :
  forallb isWhiteSpace w = true -> trim (s ++ w) = trim s.
Proof.
  intros Hw. unfold trim.
  now rewrite !trimStart_trimEnd, trimEnd_app_whiteSpace.
Qed.

(** The loop looks at a line only through its trimmed form. *)
Lemma processLine_trim (st : State) (rawLine : jsstring) :
  processLine st (trim rawLine) = processLine st rawLine.
Proof. unfold processLine. now rewrite trim_idem. Qed.

Lemma fold_processLine_trim (lines : list jsstring) (st : State) :
  fold_left processLine (map trim lines) st = fold_left processLine lines st.
Proof.
  revert st. induction lines as [|l lines IH]; intros st; [reflexivity|].
  simpl. now rewrite processLine_trim, IH.
Qed.

Lemma hd_map_trim (lines : list jsstring) :
  hd [] (map trim lines) = trim (hd [] lines).
Proof. now destruct lines. Qed.

Lemma initialState_trim (lines : list jsstring) :
  initialState (map trim lines) = initialState lines.
Proof.
  unfold initialState.
  now rewrite !headerMissing_first_line, hd_map_trim, trim_idem.
Qed.

Lemma finish_length (lines1 lines2 : list jsstring) (st : State) :
  length lines1 = length lines2 -> finish lines1 st = finish lines2 st.
Proof. unfold finish. now intros ->. Qed.

(** The run as a function of the trimmed lines. *)
Lemma run_trimmedLines (m3uText : jsstring) :
  run m3uText =
  finish (trimmedLines m3uText)
         (fold_left processLine (trimmedLines m3uText)
            (initialState (trimmedLines m3uText))).
Proof.
  unfold run, trimmedLines.
  rewrite initialState_trim, fold_processLine_trim.
  apply finish_length. now rewrite length_map.
Qed.

(** X1. Two texts whose lines are the same once trimmed give the same
    records and the same diagnostics: white space at the start or the end
    of a line never matters. *)
Theorem surrounding_whiteSpace_is_irrelevant (text1 text2 : jsstring) :
  trimmedLines text1 = trimmedLines text2 ->
  parseM3U text1 = parseM3U text2
  /\ diagnostics text1 = diagnostics text2.
Proof.
  intros H. unfold parseM3U, diagnostics.
  now rewrite !run_trimmedLines, H.
Qed.

Lemma surrounding_whiteSpace_is_irrelevant_witness :
  trimmedLines (joinLines [lit "  #EXTINF:-1,A  "; lit " http://x "])
  = trimmedLines (joinLines [lit "#EXTINF:-1,A"; lit "http://x"])
  /\ parseM3U (joinLines [lit "  #EXTINF:-1,A  "; lit " http://x "])
     = parseM3U (joinLines [lit "#EXTINF:-1,A"; lit "http://x"]).
Proof.
  split; [reflexivity|].
  exact (proj1 (surrounding_whiteSpace_is_irrelevant
                  (joinLines [lit "  #EXTINF:-1,A  "; lit " http://x "])
                  (joinLines [lit "#EXTINF:-1,A"; lit "http://x"])
                  eq_refl)).
Defined.

Lemma split_nonempty (sep : N) (s : jsstring) : split sep s <> [].
Proof.
  destruct s as [|c s]; simpl; [discriminate|].
  destruct (c =? sep)%N; [discriminate|].
  destruct (split sep s); discriminate.
Qed.

Lemma split_toCRLF (m3uText : jsstring) :
  split LF (toCRLF m3uText) = withCarriageReturns (split LF m3uText).
Proof.
  induction m3uText as [|c t IH]; [reflexivity|].
  unfold toCRLF in *. cbn [flat_map].
  destruct (N.eqb_spec c LF) as [->|Hc].
  - cbn [app split]. change (CR =? LF)%N with false.
    change (LF =? LF)%N with true. cbn iota.
    rewrite IH.
    pose proof (split_nonempty LF t) as Hne.
    destruct (split LF t) as [|l ls]; [congruence|]. reflexivity.
  - cbn [app split]. apply N.eqb_neq in Hc. rewrite Hc, IH.
    pose proof (split_nonempty LF t) as Hne.
    destruct (split LF t) as [|l [|l' ls]]; [congruence| |]; reflexivity.
Qed.

Lemma map_trim_withCarriageReturns (lines : list jsstring) :
  map trim (withCarriageReturns lines) = map trim lines.
Proof.
  induction lines as [|l [|l' ls] IH]; try reflexivity.
  cbn [withCarriageReturns map] in *. rewrite IH.
  now rewrite trim_app_whiteSpace by reflexivity.
Qed.

(** X2. Line endings: a text with carriage return, line feed at the end of
    its lines gives the same records and the same console output as the
    text with line feeds alone. *)
Theorem crlf_line_endings_are_irrelevant (m3uText : jsstring) :
  run (toCRLF m3uText) = run m3uText.
Proof.
  rewrite !run_trimmedLines. unfold trimmedLines.
  now rewrite split_toCRLF, map_trim_withCarriageReturns.
Qed.

(** ** Lines the loop ignores *)

Lemma processLine_ignored (st : State) (rawLine : jsstring) :
  isIgnoredLine (trim rawLine) = true -> processLine st rawLine = st.
Proof.
  unfold isIgnoredLine. rewrite orb_true_iff, isEmpty_true, strictEquals_eq.
  unfold processLine.
  intros [-> | ->]; cbn; destruct st as [p [c|] k]; reflexivity.
Qed.

(** X3. Blank lines and lines that are exactly the header change nothing,
    wherever they stand, also between a metadata directive and its URL:
    the loop ends in the same state with and without them. *)
Theorem ignored_lines_change_nothing (lines : list jsstring) (st : State) :
  fold_left processLine lines st
  = fold_left processLine
      (filter (fun l => negb (isIgnoredLine (trim l))) lines) st.
Proof.
  revert st. induction lines as [|l lines IH]; intros st; [reflexivity|].
  cbn [filter fold_left].
  destruct (isIgnoredLine (trim l)) eqn:E; cbn [negb].
  - rewrite processLine_ignored by assumption. apply IH.
  - cbn [fold_left]. apply IH.
Qed.

(** ** The shape of what is returned and printed *)

Lemma processLine_raw_deleted (st : State) (rawLine : jsstring) :
  Forall (fun c => rawExtInf c = None) (parsedChannels st) ->
  Forall (fun c => rawExtInf c = None)
         (parsedChannels (processLine st rawLine)).
Proof.
  intros H. unfold processLine.
  destruct (startsWith (lit "#EXTINF:") (trim rawLine)).
  - now rewrite metadataBranch_parsed.
  - destruct (currentChannel st) as [c|];
      repeat match goal with
             | |- context [if ?b then _ else _] => destruct b
             end;
      cbn [parsedChannels]; try assumption;
      (apply Forall_app; split; [assumption | repeat constructor]).
Qed.

Lemma fold_processLine_raw_deleted (lines : list jsstring) (st : State) :
  Forall (fun c => rawExtInf c = None) (parsedChannels st) ->
  Forall (fun c => rawExtInf c = None)
         (parsedChannels (fold_left processLine lines st)).
Proof.
  revert st. induction lines as [|l lines IH]; intros st Hst; [exact Hst|].
  simpl. apply IH. now apply processLine_raw_deleted.
Qed.

(** X4. No returned record carries the [rawExtInf] property: it is deleted
    before a channel is pushed, and the record made for a bare URL never
    has it. *)
Theorem returned_records_have_no_rawExtInf (m3uText : jsstring) :
  Forall (fun c => rawExtInf c = None) (parseM3U m3uText).
Proof.
  unfold parseM3U, run. rewrite finish_parsed.
  apply fold_processLine_raw_deleted. constructor.
Qed.

Lemma processLine_loop_warnings (st : State) (rawLine : jsstring) :
  exists more,
    console (processLine st rawLine) = console st ++ more
    /\ forallb isLoopWarning more = true.
Proof.
  unfold processLine, metadataBranch, noteSuperseded.
  destruct (startsWith (lit "#EXTINF:") (trim rawLine)).
  - destruct (lastIndexOf COMMA (trim (substringFrom 8 (trim rawLine))));
      destruct (currentChannel st) as [c|]; try destruct (isEmpty (url c));
      cbn [console]; rewrite <- ?app_assoc;
      try (eexists; split; [reflexivity|]; reflexivity);
      exists []; rewrite app_nil_r; auto.
  - destruct (currentChannel st) as [c|];
      repeat match goal with
             | |- context [if ?b then _ else _] => destruct b
             end;
      cbn [console];
      try (eexists; split; [reflexivity|]; reflexivity);
      exists []; rewrite app_nil_r; auto.
Qed.

Lemma fold_processLine_loop_warnings (lines : list jsstring) (st : State) :
  exists more,
    console (fold_left processLine lines st) = console st ++ more
    /\ forallb isLoopWarning more = true.
Proof.
  revert st. induction lines as [|l lines IH]; intros st; simpl.
  - exists []. now rewrite app_nil_r.
  - destruct (IH (processLine st l)) as (m2 & E2 & H2).
    destruct (processLine_loop_warnings st l) as (m1 & E1 & H1).
    exists (m1 ++ m2). rewrite E2, E1, app_assoc. split; [reflexivity|].
    now rewrite forallb_app, H1, H2.
Qed.

(** Everything the parser prints, in order. *)
Lemma run_console (m3uText : jsstring) :
  exists loop eof,
    console (run m3uText)
    = StartingParse
        :: (if headerMissing (split LF m3uText) then [MissingHeader] else [])
        ++ loop ++ eof
        ++ ParsingComplete (length (parseM3U m3uText))
        :: (if (length (parseM3U m3uText) =? 0)
               && (1 <? length (split LF m3uText))
            then [ZeroChannels] else [])
    /\ forallb isLoopWarning loop = true
    /\ (eof = [] \/ exists raw, eof = [MissingUrlAtEOF raw]).
Proof.
  unfold parseM3U, run. rewrite finish_parsed.
  set (lines := split LF m3uText).
  destruct (fold_processLine_loop_warnings lines (initialState lines))
    as (loop & E & Hloop).
  set (st := fold_left processLine lines (initialState lines)) in *.
  exists loop.
  exists (match currentChannel st with
          | Some c => if isEmpty (url c) then [MissingUrlAtEOF (rawExtInf c)]
                      else []
          | None => []
          end).
  split; [|split; [assumption|]].
  - unfold finish. cbn [console]. rewrite E. unfold initialState.
    cbn [console].
    destruct (headerMissing lines);
      destruct (currentChannel st) as [c|]; try destruct (isEmpty (url c));
      destruct ((length (parsedChannels st) =? 0) && (1 <? length lines));
      cbn [app]; rewrite <- ?app_assoc; cbn [app]; rewrite ?app_nil_r;
      reflexivity.
  - destruct (currentChannel st) as [c|]; try destruct (isEmpty (url c));
      eauto.
Qed.

Lemma loop_warnings_are_warnings (ms : list Message) :
  forallb isLoopWarning ms = true -> filter isLog ms = [].
Proof.
  induction ms as [|m ms IH]; [reflexivity|]. simpl.
  rewrite andb_true_iff. intros [Hm Hms].
  destruct m; try discriminate; simpl; auto.
Qed.

Lemma split_length (sep : N) (s : jsstring) :
  length (split sep s) = S (length (filter (N.eqb sep) s)).
Proof.
  induction s as [|c s IH]; [reflexivity|]. simpl.
  rewrite (N.eqb_sym sep c). destruct (c =? sep)%N; simpl.
  - now rewrite IH.
  - rewrite <- IH. pose proof (split_nonempty sep s).
    now destruct (split sep s).
Qed.

Lemma several_lines (s : jsstring) :
  (1 <? length (split LF s)) = true <-> In LF s.
Proof.
  rewrite split_length, Nat.ltb_lt. split.
  - intros H. destruct (filter (N.eqb LF) s) as [|c r] eqn:E;
      [simpl in H; lia|].
    assert (Hin : In c (filter (N.eqb LF) s)) by (rewrite E; now left).
    apply filter_In in Hin as [Hin Hc]. apply N.eqb_eq in Hc. now subst.
  - intros H.
    assert (Hin : In LF (filter (N.eqb LF) s))
      by (apply filter_In; split; [assumption | apply N.eqb_refl]).
    destruct (filter (N.eqb LF) s); [destruct Hin | simpl; lia].
Qed.

(** X5. The warning about an empty result is printed exactly when nothing
    is returned and the text has at least one line feed; a text of one line
    never gets it. *)
Theorem zero_channels_warning (m3uText : jsstring) :
  In ZeroChannels (diagnostics m3uText)
  <-> parseM3U m3uText = [] /\ In LF m3uText.
Proof.
  unfold diagnostics. rewrite filter_In.
  destruct (run_console m3uText) as (loop & eof & -> & Hloop & Heof).
  rewrite <- several_lines, <- length_zero_iff_nil, <- Nat.eqb_eq,
    <- andb_true_iff.
  assert (Hl : ~ In ZeroChannels loop).
  { intros Hin. rewrite forallb_forall in Hloop.
    specialize (Hloop _ Hin). discriminate. }
  assert (He : ~ In ZeroChannels eof).
  { destruct Heof as [-> | [raw ->]]; simpl; intuition discriminate. }
  destruct ((length (parseM3U m3uText) =? 0)
            && (1 <? length (split LF m3uText))).
  - split; [reflexivity|]. intros _. split; [|reflexivity].
    right. rewrite !in_app_iff. right. right. right. right. now left.
  - split; [|discriminate]. intros [Hin _]. exfalso.
    destruct Hin as [Hin | Hin]; [discriminate|].
    rewrite !in_app_iff in Hin.
    destruct Hin as [Hin | [Hin | [Hin | Hin]]]; try tauto.
    + destruct (headerMissing (split LF m3uText)); simpl in Hin;
        intuition discriminate.
    + simpl in Hin. intuition discriminate.
Qed.

(** X6. Whatever the text, the parser logs exactly two messages at the
    information level, in this order: the start message and the completion
    message, and the completion message carries the number of records
    returned. *)
Theorem logs_start_and_count (m3uText : jsstring) :
  filter isLog (console (run m3uText))
  = [StartingParse; ParsingComplete (length (parseM3U m3uText))].
Proof.
  destruct (run_console m3uText) as (loop & eof & -> & Hloop & Heof).
  cbn [filter isLog isWarning level negb].
  rewrite !filter_app, (loop_warnings_are_warnings loop Hloop).
  cbn [filter isLog isWarning level negb app].
  assert (He : filter isLog eof = [])
    by (destruct Heof as [-> | [raw ->]]; reflexivity).
  rewrite He. cbn [app].
  destruct (headerMissing (split LF m3uText));
    destruct ((length (parseM3U m3uText) =? 0)
              && (1 <? length (split LF m3uText))); reflexivity.
Qed.

(** ** What the attribute pattern finds *)

Lemma gapOk_tail (c : N) (gap : jsstring) :
  gapOk (c :: gap) = true -> gapOk gap = true.
Proof.
  destruct gap as [|d gap]; [reflexivity|].
  cbn [gapOk]. rewrite andb_true_iff. tauto.
Qed.

(** A gap that is not empty reads: key characters, then a character that
    is neither a key character nor the equals sign, then the rest. *)
Lemma gapOk_first_stop (gap : jsstring) :
  gap <> [] -> gapOk gap = true ->
  exists k d after,
    gap = k ++ d :: after
    /\ forallb isKeyChar k = true /\ isKeyChar d = false
    /\ (d =? EQUALS)%N = false.
Proof.
  induction gap as [|c gap IH]; [congruence|]. intros _ H.
  destruct gap as [|c' gap].
  - cbn [gapOk] in H. apply andb_true_iff in H as [He Hk].
    apply negb_true_iff in He, Hk. now exists [], c, [].
  - assert (Ht : gapOk (c' :: gap) = true) by now apply gapOk_tail in H.
    cbn [gapOk] in H. apply andb_true_iff in H as [He _].
    apply negb_true_iff in He.
    destruct (isKeyChar c) eqn:Hc.
    + destruct (IH ltac:(discriminate) Ht) as (k & d & after & E & Hk & Hd & Hde).
      exists (c :: k), d, after. rewrite E. simpl. now rewrite Hc, Hk.
    + now exists [], c, (c' :: gap).
Qed.

Lemma attributeAt_in_gap (gap rest : jsstring) :
  gap <> [] -> gapOk gap = true -> attributeAt (gap ++ rest) = None.
Proof.
  intros Hne H.
  destruct (gapOk_first_stop gap Hne H) as (k & d & after & -> & Hk & Hd & He).
  rewrite <- app_assoc. cbn [app]. unfold attributeAt.
  rewrite span_prefix by assumption.
  destruct k; [reflexivity|].
  destruct (after ++ rest); [reflexivity|]. now rewrite He.
Qed.

Lemma attributeExec_after_gap (gap rest : jsstring) :
  gapOk gap = true -> attributeExec (gap ++ rest) = attributeExec rest.
Proof.
  induction gap as [|c gap IH]; [reflexivity|]. intros H.
  change ((c :: gap) ++ rest) with (c :: (gap ++ rest)).
  cbn [attributeExec].
  change (c :: (gap ++ rest)) with ((c :: gap) ++ rest).
  rewrite attributeAt_in_gap by (assumption || discriminate).
  apply IH. now apply gapOk_tail in H.
Qed.

Lemma attributeExec_needs_equals_and_quote (s : jsstring) :
  attributeExec s <> None -> In EQUALS s /\ In QUOTE s.
Proof.
  destruct (attributeExec s) as [[[k v] rest]|] eqn:E; [|congruence].
  intros _. apply attributeExec_sound in E as (sk & -> & _).
  split; rewrite !in_app_iff; simpl; tauto.
Qed.

Lemma attributeMatches_rendered
  (items : list (jsstring * (jsstring * jsstring))) (tail : jsstring) :
  Forall (fun item => gapOk (fst item) = true
                      /\ attributeOk (snd item) = true) items ->
  ~ In EQUALS tail ->
  attributeMatches (flat_map renderAttribute items ++ tail) = map snd items.
Proof.
  intros Hitems Htail. induction Hitems as [|[gap [k v]] items [Hg Ha] _ IH].
  - simpl. rewrite attributeMatches_unfold.
    destruct (attributeExec tail) eqn:E; [|reflexivity].
    exfalso. apply Htail.
    apply (attributeExec_needs_equals_and_quote tail). congruence.
  - cbn [flat_map map snd]. unfold renderAttribute at 1. cbn [fst snd] in *.
    unfold attributeOk in Ha. cbn [fst snd] in Ha.
    apply andb_true_iff in Ha as [Ha Hv]. apply andb_true_iff in Ha as [Hk Hkc].
    apply negb_true_iff, isEmpty_false in Hk.
    rewrite attributeMatches_unfold.
    repeat rewrite <- app_assoc.
    rewrite attributeExec_after_gap by assumption.
    rewrite (attributeExec_at
               (k ++ [EQUALS; QUOTE] ++
                v ++ [QUOTE] ++ flat_map renderAttribute items ++ tail)
               (k, v, flat_map renderAttribute items ++ tail)).
    + now rewrite IH.
    + now apply attributeAt_complete.
Qed.

(** X7. A well-formed attribute block is read back exactly: when the block
    is a sequence of attributes, each written as a key, an equals sign and
    a value between double quotes, each after a gap that has no equals sign
    and does not end in a key character, and followed by text without an
    equals sign, the loop applies the switch to these keys and values, all
    of them, in this order, and to nothing else. Values may hold commas and
    spaces. *)
Theorem wellformed_attributes_are_all_read
  (items : list (jsstring * (jsstring * jsstring))) (tail : jsstring)
  (c : Channel) :
  Forall (fun item => gapOk (fst item) = true
                      /\ attributeOk (snd item) = true) items ->
  ~ In EQUALS tail ->
  extractAttributes (flat_map renderAttribute items ++ tail) c
  = fold_left
      (fun c kv => assignAttribute (toLowerCase (fst kv)) (snd kv) c)
      (map snd items) c.
Proof.
  intros Hitems Htail.
  now rewrite extractAttributes_fold, attributeMatches_rendered.
Qed.

Lemma wellformed_attributes_are_all_read_witness :
  Forall (fun item => gapOk (fst item) = true
                      /\ attributeOk (snd item) = true) sampleAttributes
  /\ ~ In EQUALS (lit " ")
  /\ extractAttributes (flat_map renderAttribute sampleAttributes ++ lit " ")
       emptyChannel
     = mkChannel [] (lit "abc") (lit "A, B") [] [] [] None.
Proof.
  assert (Hitems : Forall (fun item => gapOk (fst item) = true
                                       /\ attributeOk (snd item) = true)
                          sampleAttributes)
    by (repeat constructor).
  assert (Htail : ~ In EQUALS (lit " "))
    by (vm_compute; intuition discriminate).
  split; [exact Hitems|]. split; [exact Htail|].
  rewrite (wellformed_attributes_are_all_read sampleAttributes (lit " ")
             emptyChannel Hitems Htail).
  reflexivity.
Defined.

(** X8. An attribute block without an equals sign, or without a double
    quote, sets nothing: values that are not between double quotes are
    never read. *)
Theorem unquoted_attributes_are_not_read (s : jsstring) (c : Channel) :
  ~ In EQUALS s \/ ~ In QUOTE s ->
  extractAttributes s c = c.
Proof.
  intros H. rewrite extractAttributes_unfold.
  destruct (attributeExec s) eqn:E; [|reflexivity].
  exfalso.
  destruct (attributeExec_needs_equals_and_quote s) as [He Hq];
    [congruence | tauto].
Qed.

Lemma unquoted_attributes_are_not_read_witness :
  (~ In EQUALS (lit "-1 tvg-id=abc") \/ ~ In QUOTE (lit "-1 tvg-id=abc"))
  /\ extractAttributes (lit "-1 tvg-id=abc") emptyChannel = emptyChannel.
Proof.
  assert (H : ~ In EQUALS (lit "-1 tvg-id=abc")
              \/ ~ In QUOTE (lit "-1 tvg-id=abc"))
    by (right; vm_compute; intuition discriminate).
  split; [exact H|].
  exact (unquoted_attributes_are_not_read (lit "-1 tvg-id=abc")
           emptyChannel H).
Defined.

(** X9. The attribute block can set the four attribute fields only: an
    attribute called name or url does not reach the display name or the
    URL, and the line kept for the end-of-input warning stays. *)
Theorem attributes_leave_name_and_url (s : jsstring) (c : Channel) :
  name (extractAttributes s c) = name c
  /\ url (extractAttributes s c) = url c
  /\ rawExtInf (extractAttributes s c) = rawExtInf c.
Proof.
  split; [|split].
  - apply extractAttributes_name.
  - apply extractAttributes_url.
  - apply extractAttributes_rawExtInf.
Qed.

(** ** A directive and its URL *)

Lemma processLine_completes (st : State) (c : Channel) (rawLine : jsstring) :
  currentChannel st = Some c ->
  isContentLine (trim rawLine) = true ->
  processLine st rawLine
  = mkState (parsedChannels st ++ [finalize (trim rawLine) c]) None
            (console st).
Proof.
  intros Hc Hcont. unfold processLine. unfold isContentLine in Hcont.
  destruct (startsWith (lit "#EXTINF:") (trim rawLine)) eqn:Hm.
  - rewrite (extinf_starts_with_hash _ Hm), andb_false_r in Hcont.
    discriminate.
  - now rewrite Hc, Hcont.
Qed.

Lemma processLine_bare (st : State) (rawLine : jsstring) :
  currentChannel st = None ->
  isContentLine (trim rawLine) = true ->
  processLine st rawLine
  = mkState (parsedChannels st
               ++ [basicEntry (length (parsedChannels st)) (trim rawLine)])
            None (console st ++ [UrlWithoutExtInf (trim rawLine)]).
Proof.
  intros Hc Hcont. unfold processLine. unfold isContentLine in Hcont.
  destruct (startsWith (lit "#EXTINF:") (trim rawLine)) eqn:Hm.
  - rewrite (extinf_starts_with_hash _ Hm), andb_false_r in Hcont.
    discriminate.
  - now rewrite Hc, Hcont.
Qed.

Lemma fold_processLine_ignored (between : list jsstring) (st : State) :
  Forall (fun l => isIgnoredLine (trim l) = true) between ->
  fold_left processLine between st = st.
Proof.
  intros H. induction H as [|l ls Hl _ IH]; [reflexivity|].
  simpl. now rewrite processLine_ignored.
Qed.

Lemma finalize_normalizeName (line : jsstring) (emitted : nat) (c : Channel) :
  finalize line (normalizeName emitted c)
  = mkChannel (name (normalizeName emitted c)) (tvgId c) (tvgName c)
              (logo c) (group c) line None.
Proof.
  unfold normalizeName.
  repeat match goal with |- context [if ?b then _ else _] => destruct b end;
    reflexivity.
Qed.

(** X10. A metadata directive with a comma, then any number of blank or
    header lines, then a content line, always adds exactly one record,
    whatever the state before: its attribute fields are those read from
    the text before the last comma, its name is the normalized name, its
    URL is the content line trimmed. Nothing is pending afterwards, and
    the only thing printed is the warning for a channel that was pending
    before, if there was one. *)
Theorem directive_then_url_gives_one_record
  (st : State) (directive a b : jsstring) (between : list jsstring)
  (urlLine : jsstring) :
  trim directive = lit "#EXTINF:" ++ a ++ COMMA :: b ->
  ~ In COMMA b ->
  Forall (fun l => isIgnoredLine (trim l) = true) between ->
  isContentLine (trim urlLine) = true ->
  let extracted :=
    extractAttributes a
      (mkChannel (trim b) [] [] [] [] [] (Some (trim directive))) in
  fold_left processLine (directive :: between ++ [urlLine]) st
  = mkState
      (parsedChannels st
         ++ [mkChannel
               (name (normalizeName (length (parsedChannels st)) extracted))
               (tvgId extracted) (tvgName extracted) (logo extracted)
               (group extracted) (trim urlLine) None])
      None
      (noteSuperseded st).
Proof.
  intros Hd Hb Hbetween Hu extracted.
  cbn [fold_left]. rewrite fold_left_app.
  rewrite (metadata_accepted st directive a b Hd Hb).
  rewrite (fold_processLine_ignored between _ Hbetween).
  cbn [fold_left]. fold extracted.
  rewrite (processLine_completes
             (mkState (parsedChannels st)
                (Some (normalizeName (length (parsedChannels st)) extracted))
                (noteSuperseded st))
             (normalizeName (length (parsedChannels st)) extracted)
             urlLine eq_refl Hu).
  cbn [parsedChannels console]. fold extracted.
  now rewrite finalize_normalizeName.
Qed.

Lemma directive_then_url_gives_one_record_witness :
  trim sampleDirective
  = lit "#EXTINF:" ++ (lit "-1 tvg-id=" ++ quoted "abc") ++ COMMA
      :: lit "ABC News"
  /\ ~ In COMMA (lit "ABC News")
  /\ Forall (fun l => isIgnoredLine (trim l) = true) [[]; lit "#EXTM3U"]
  /\ isContentLine (trim (lit "http://x")) = true
  /\ fold_left processLine
       (sampleDirective :: [[]; lit "#EXTM3U"] ++ [lit "http://x"])
       (stateAfter [lit "#EXTM3U"])
     = mkState
         [mkChannel (lit "ABC News") (lit "abc") [] [] [] (lit "http://x")
                    None]
         None [StartingParse].
Proof.
  assert (Hb : ~ In COMMA (lit "ABC News"))
    by (vm_compute; intuition discriminate).
  assert (Hbetween : Forall (fun l => isIgnoredLine (trim l) = true)
                            [[]; lit "#EXTM3U"])
    by (repeat constructor).
  split; [reflexivity|]. split; [exact Hb|]. split; [exact Hbetween|].
  split; [reflexivity|].
  refine (eq_trans
            (directive_then_url_gives_one_record
               (stateAfter [lit "#EXTM3U"]) sampleDirective
               (lit "-1 tvg-id=" ++ quoted "abc") (lit "ABC News")
               [[]; lit "#EXTM3U"] (lit "http://x")
               eq_refl Hb Hbetween eq_refl)
            _).
  vm_compute. reflexivity.
Defined.

(** X11. After a metadata directive without a comma, the next content
    line always becomes a record of its own with a synthesized name,
    whatever was pending before: the metadata of an earlier directive is
    never attached to it. *)
Theorem url_after_malformed_directive_is_bare
  (st : State) (directive rest : jsstring) (between : list jsstring)
  (urlLine : jsstring) :
  trim directive = lit "#EXTINF:" ++ rest ->
  ~ In COMMA rest ->
  Forall (fun l => isIgnoredLine (trim l) = true) between ->
  isContentLine (trim urlLine) = true ->
  fold_left processLine (directive :: between ++ [urlLine]) st
  = mkState
      (parsedChannels st
         ++ [mkChannel
               (lit "Channel "
                  ++ numberToString (length (parsedChannels st) + 1))
               [] [] [] [] (trim urlLine) None])
      None
      (noteSuperseded st
         ++ [MalformedExtInf (trim directive);
             UrlWithoutExtInf (trim urlLine)]).
Proof.
  intros Hd Hrest Hbetween Hu.
  cbn [fold_left]. rewrite fold_left_app.
  rewrite (metadata_rejected st directive rest Hd Hrest).
  rewrite (fold_processLine_ignored between _ Hbetween).
  cbn [fold_left].
  rewrite (processLine_bare
             (mkState (parsedChannels st) None
                (noteSuperseded st ++ [MalformedExtInf (trim directive)]))
             urlLine eq_refl Hu).
  cbn [parsedChannels console]. now rewrite <- app_assoc.
Qed.

Lemma url_after_malformed_directive_is_bare_witness :
  trim (lit "#EXTINF:-1 no comma here")
  = lit "#EXTINF:" ++ lit "-1 no comma here"
  /\ ~ In COMMA (lit "-1 no comma here")
  /\ isContentLine (trim (lit "http://x/y")) = true
  /\ fold_left processLine
       (lit "#EXTINF:-1 no comma here" :: [] ++ [lit "http://x/y"]) pendingA
     = mkState
         [mkChannel (lit "Channel 1") [] [] [] [] (lit "http://x/y") None]
         None
         [StartingParse; DiscardingPrevious (lit "A");
          MalformedExtInf (lit "#EXTINF:-1 no comma here");
          UrlWithoutExtInf (lit "http://x/y")].
Proof.
  assert (Hr : ~ In COMMA (lit "-1 no comma here"))
    by (vm_compute; intuition discriminate).
  split; [reflexivity|]. split; [exact Hr|]. split; [reflexivity|].
  rewrite (url_after_malformed_directive_is_bare pendingA
             (lit "#EXTINF:-1 no comma here") (lit "-1 no comma here")
             [] (lit "http://x/y") eq_refl Hr (Forall_nil _) eq_refl).
  reflexivity.
Defined.

(** ** Every directive is accounted for *)

Lemma filter_filter_implied {A : Type} (f g : A -> bool) (l : list A) :
  (forall x, f x = true -> g x = true) ->
  filter f (filter g l) = filter f l.
Proof.
  intros H. induction l as [|x l IH]; [reflexivity|]. simpl.
  destruct (g x) eqn:Eg; simpl.
  - now rewrite IH.
  - destruct (f x) eqn:Ef; [|exact IH].
    apply H in Ef. congruence.
Qed.

Lemma invariant_pending_url (st : State) :
  invariant st ->
  match currentChannel st with
  | Some c => isEmpty (url c) = true
  | None => True
  end.
Proof.
  intros [_ H]. destruct (currentChannel st) as [c|]; [|exact I].
  destruct (H c eq_refl) as (_ & Hu & _). now rewrite Hu.
Qed.

Ltac count_messages :=
  cbn [console parsedChannels currentChannel];
  rewrite ?filter_app, ?length_app;
  cbn [filter isDropWarning isBareWarning length app];
  lia.

Lemma processLine_balanced (directives : nat) (st : State)
  (rawLine : jsstring) :
  invariant st -> balanced directives st ->
  balanced (directives + if isMetadataLine (trim rawLine) then 1 else 0)
           (processLine st rawLine).
Proof.
  intros Hinv Hbal. apply invariant_pending_url in Hinv.
  revert Hinv Hbal.
  unfold balanced, pendingCount, processLine, isMetadataLine.
  destruct (startsWith (lit "#EXTINF:") (trim rawLine)).
  - unfold metadataBranch, noteSuperseded.
    destruct (lastIndexOf COMMA (trim (substringFrom 8 (trim rawLine))));
      destruct (currentChannel st) as [c|]; intros Hu H; rewrite ?Hu;
      count_messages.
  - destruct (currentChannel st) as [c|] eqn:Ec; intros Hu H;
      rewrite ?Hu, ?andb_true_r;
      (destruct (negb (isEmpty (trim rawLine))
                 && negb (startsWith [HASH] (trim rawLine)));
       [count_messages|]).
    + destruct (startsWith [HASH] (trim rawLine)
                && negb (strictEquals (trim rawLine) (lit "#EXTM3U")));
        [|rewrite Ec]; count_messages.
    + rewrite Ec. count_messages.
Qed.

Lemma fold_processLine_balanced (lines : list jsstring) (directives : nat)
  (st : State) :
  invariant st -> balanced directives st ->
  balanced (directives + length (filter isMetadataLine (map trim lines)))
           (fold_left processLine lines st).
Proof.
  revert directives st.
  induction lines as [|l lines IH]; intros directives st Hinv Hbal.
  - simpl. now rewrite Nat.add_0_r.
  - cbn [fold_left map filter].
    pose proof (processLine_balanced directives st l Hinv Hbal) as Hstep.
    apply invariant_processLine with (rawLine := l) in Hinv.
    specialize (IH _ _ Hinv Hstep).
    destruct (isMetadataLine (trim l)); cbn [length];
      [rewrite Nat.add_succ_r, <- Nat.add_1_r, <- Nat.add_assoc,
         (Nat.add_comm _ 1), Nat.add_assoc
      | rewrite Nat.add_0_r in IH]; exact IH.
Qed.

(** X12. No metadata directive is lost silently, and no record appears
    from nowhere: the number of metadata directives plus the number of
    bare-URL warnings equals the number of returned records plus the number
    of warnings about a dropped directive (malformed, superseded, cut off by
    another directive, or unfinished at the end of the input). *)
Theorem every_directive_is_accounted_for (m3uText : jsstring) :
  length (filter isMetadataLine (trimmedLines m3uText))
  + length (filter isBareWarning (diagnostics m3uText))
  = length (parseM3U m3uText)
    + length (filter isDropWarning (diagnostics m3uText)).
Proof.
  unfold diagnostics, parseM3U, trimmedLines, run.
  rewrite !filter_filter_implied
    by (intros m Hm; destruct m; (discriminate Hm || reflexivity)).
  set (lines := split LF m3uText).
  pose proof (fold_processLine_invariant lines (initialState lines)
                (invariant_initial lines)) as Hinv.
  assert (H0 : balanced 0 (initialState lines)).
  { unfold balanced, initialState, pendingCount.
    destruct (headerMissing lines); reflexivity. }
  pose proof (fold_processLine_balanced lines 0 (initialState lines)
                (invariant_initial lines) H0) as Hbal.
  apply invariant_pending_url in Hinv.
  set (st := fold_left processLine lines (initialState lines)) in *.
  unfold balanced, pendingCount in Hbal. cbn [Nat.add] in Hbal.
  revert Hinv Hbal. unfold finish.
  destruct (currentChannel st) as [c|]; intros Hu Hbal; rewrite ?Hu;
    destruct ((length (parsedChannels st) =? 0) && (1 <? length lines));
    count_messages.
Qed.

(** ** Fields that can be written back *)

Lemma split_no_separator (sep : N) (s : jsstring) :
  Forall (fun l => ~ In sep l) (split sep s).
Proof.
  induction s as [|c s IH]; simpl.
  - constructor; [tauto | constructor].
  - destruct (N.eqb_spec c sep) as [->|Hc].
    + constructor; [simpl; tauto | exact IH].
    + destruct (split sep s) as [|l ls]; [repeat constructor; simpl|].
      * intros [E | []]. congruence.
      * inversion IH as [|? ? Hl Hls]; subst.
        constructor; [|assumption]. simpl. intros [E | Hin]; congruence.
Qed.

Lemma firstn_sub (n : nat) (s : jsstring) (x : N) :
  In x (firstn n s) -> In x s.
Proof.
  intros H. rewrite <- (firstn_skipn n s). apply in_or_app. now left.
Qed.

Lemma skipn_sub (n : nat) (s : jsstring) (x : N) :
  In x (skipn n s) -> In x s.
Proof.
  intros H. rewrite <- (firstn_skipn n s). apply in_or_app. now right.
Qed.

Lemma uintDigits_digits (d : Decimal.uint) :
  forallb isDigit (uintDigits d) = true.
Proof. induction d; simpl; auto. Qed.

Lemma numberToString_quotable (n : nat) : quotable (numberToString n).
Proof.
  unfold numberToString, quotable.
  pose proof (uintDigits_digits (Nat.to_uint n)) as H.
  rewrite forallb_forall in H.
  split; intros Hin; apply H in Hin; discriminate Hin.
Qed.

(** The values the loop sees are parts of the block without double
    quotes. *)
Lemma attributeMatches_values (s : jsstring) :
  Forall (fun m => (forall x, In x (snd m) -> In x s) /\ ~ In QUOTE (snd m))
         (attributeMatches s).
Proof.
  induction s as [s IH] using by_length.
  rewrite attributeMatches_unfold.
  destruct (attributeExec s) as [[[k v] rest]|] eqn:E; [|constructor].
  pose proof (attributeExec_shorter _ _ _ _ E) as Hlen.
  apply attributeExec_sound in E as (sk & Hs & Hat).
  apply attributeAt_sound in Hat as (_ & _ & _ & Hv).
  constructor.
  - cbn [snd]. split.
    + intros x Hx. rewrite Hs, !in_app_iff. right. right. right. now left.
    + intros Hq. rewrite forallb_forall in Hv. apply Hv in Hq.
      discriminate Hq.
  - eapply Forall_impl; [|apply (IH rest Hlen)].
    intros m [Hsub Hq]. split; [|assumption].
    intros x Hx. apply Hsub in Hx. rewrite Hs, !in_app_iff.
    right. right. right. right. now right.
Qed.

Ltac fields :=
  unfold writable, quotable in *;
  cbn [name url tvgId tvgName logo group
       setName setTvgId setTvgName setLogo setGroup finalize basicEntry] in *;
  intuition idtac.

Lemma assignAttribute_writable (key value : jsstring) (c : Channel) :
  quotable value -> writable c -> writable (assignAttribute key value c).
Proof.
  intros Hv Hc. unfold assignAttribute.
  destruct (strictEquals key (lit "tvg-id")); [fields|].
  destruct (strictEquals key (lit "tvg-name")); [fields|].
  destruct (strictEquals key (lit "tvg-logo")); [fields|].
  destruct (strictEquals key (lit "group-title")); fields.
Qed.

Lemma extractAttributes_writable (s : jsstring) (c : Channel) :
  ~ In LF s -> writable c -> writable (extractAttributes s c).
Proof.
  intros Hs Hc. rewrite extractAttributes_fold.
  pose proof (attributeMatches_values s) as Hms. revert c Hc.
  induction Hms as [|m ms [Hsub Hq] _ IH]; intros c Hc; [exact Hc|].
  cbn [fold_left]. apply IH. apply assignAttribute_writable; [|exact Hc].
  split; [|exact Hq]. intros Hin. apply Hs. now apply Hsub.
Qed.

Lemma synthesized_name_single_line (prefix : string) (n : nat) :
  ~ In LF (lit prefix) -> ~ In LF (lit prefix ++ numberToString n).
Proof.
  intros Hp. rewrite in_app_iff. intros [H | H]; [tauto|].
  now apply (numberToString_quotable n) in H.
Qed.

Lemma normalizeName_writable (emitted : nat) (c : Channel) :
  writable c -> writable (normalizeName emitted c).
Proof.
  intros Hc.
  assert (Hs : ~ In LF (lit "Unnamed Channel "
                          ++ numberToString (emitted + 1))).
  { apply synthesized_name_single_line. vm_compute. intuition discriminate. }
  unfold normalizeName.
  destruct ((isEmpty (name c) || matchesPlaceholder (name c))
            && negb (isEmpty (tvgName c))); cbn [name setName].
  - destruct (isEmpty (tvgName c)); fields.
  - destruct (isEmpty (name c)); fields.
Qed.

Lemma metadataBranch_writable (st : State) (line : jsstring) :
  ~ In LF line -> writableState st -> writableState (metadataBranch st line).
Proof.
  intros Hline [Hp Hc]. unfold metadataBranch.
  assert (Hinfo : ~ In LF (trim (substringFrom 8 line))).
  { intros H. apply trim_In, skipn_sub in H. tauto. }
  destruct (lastIndexOf COMMA (trim (substringFrom 8 line))) as [i|].
  - split; [exact Hp|]. cbn [currentChannel]. intros c [= <-].
    apply normalizeName_writable, extractAttributes_writable.
    + intros H. apply trim_In, firstn_sub in H. tauto.
    + assert (Hn : ~ In LF (trim (substringFrom (i + 1)
                                    (trim (substringFrom 8 line))))).
      { intros H. apply trim_In, skipn_sub in H. tauto. }
      unfold writable, quotable.
      cbn [name url tvgId tvgName logo group In]. tauto.
  - split; [exact Hp | discriminate].
Qed.

Lemma processLine_writable (st : State) (rawLine : jsstring) :
  ~ In LF rawLine -> writableState st ->
  writableState (processLine st rawLine).
Proof.
  intros Hraw Hst.
  assert (Hline : ~ In LF (trim rawLine))
    by (intros H; apply trim_In in H; tauto).
  unfold processLine.
  destruct (startsWith (lit "#EXTINF:") (trim rawLine)).
  - now apply metadataBranch_writable.
  - destruct Hst as [Hp Hc].
    destruct (currentChannel st) as [c|] eqn:Ec.
    + specialize (Hc c eq_refl).
      destruct (negb (isEmpty (trim rawLine))
                && negb (startsWith [HASH] (trim rawLine))).
      * split; [|discriminate]. cbn [parsedChannels].
        apply Forall_app. split; [exact Hp|].
        constructor; [fields | constructor].
      * destruct (startsWith [HASH] (trim rawLine)
                  && negb (strictEquals (trim rawLine) (lit "#EXTM3U"))
                  && isEmpty (url c)).
        -- split; [exact Hp | discriminate].
        -- split; [exact Hp|]. rewrite Ec. now intros c' [= <-].
    + destruct (negb (isEmpty (trim rawLine))
                && negb (startsWith [HASH] (trim rawLine))).
      * split; [|discriminate]. cbn [parsedChannels].
        apply Forall_app. split; [exact Hp|].
        constructor; [|constructor].
        assert (Hs : ~ In LF (lit "Channel "
                                ++ numberToString
                                     (length (parsedChannels st) + 1))).
        { apply synthesized_name_single_line.
          vm_compute. intuition discriminate. }
        unfold writable, quotable, basicEntry.
        cbn [name url tvgId tvgName logo group In]. tauto.
      * split; [exact Hp|]. rewrite Ec. discriminate.
Qed.

Lemma fold_processLine_writable (lines : list jsstring) (st : State) :
  Forall (fun l => ~ In LF l) lines -> writableState st ->
  writableState (fold_left processLine lines st).
Proof.
  intros Hlines. revert st.
  induction Hlines as [|l lines Hl _ IH]; intros st Hst; [exact Hst|].
  simpl. apply IH. now apply processLine_writable.
Qed.

(** X13. Every returned record can be written back in the same format: its
    name and its URL hold no line feed, and its four attribute fields hold
    neither a line feed nor a double quote. *)
Theorem returned_fields_can_be_written_back (m3uText : jsstring) :
  Forall (fun c =>
            ~ In LF (name c) /\ ~ In LF (url c)
            /\ (~ In LF (tvgId c) /\ ~ In QUOTE (tvgId c))
            /\ (~ In LF (tvgName c) /\ ~ In QUOTE (tvgName c))
            /\ (~ In LF (logo c) /\ ~ In QUOTE (logo c))
            /\ (~ In LF (group c) /\ ~ In QUOTE (group c)))
         (parseM3U m3uText).
Proof.
  unfold parseM3U, run. rewrite finish_parsed.
  apply (fold_processLine_writable (split LF m3uText)).
  - apply split_no_separator.
  - split; [constructor | discriminate].
Qed.

(** ** The number in a synthesized name *)

Lemma fold_processLine_count (lines : list jsstring) (st : State) :
  length (parsedChannels (fold_left processLine lines st))
  = length (parsedChannels st)
    + length (filter isContentLine (map trim lines)).
Proof.
  rewrite <- (length_map url), fold_processLine_urls, length_app.
  now rewrite length_map.
Qed.

Lemma nth_error_at_length {A : Type} (l : list A) (x : A) (more : list A) :
  nth_error ((l ++ [x]) ++ more) (length l) = Some x.
Proof.
  rewrite <- app_assoc. induction l as [|y l IH]; [reflexivity | exact IH].
Qed.

(** X14. The number in the name of a record made for a bare URL is the
    position of the record in what is returned: when the line is the
    content line number [k + 1] of the text and nothing is pending when
    it is read, the record is the one at index [k], and it is called
    [Channel k+1]. *)
Theorem bare_url_is_named_by_position
  (m3uText : jsstring) (before after : list jsstring) (line : jsstring) :
  split LF m3uText = before ++ line :: after ->
  currentChannel
    (fold_left processLine before (initialState (split LF m3uText))) = None ->
  isContentLine (trim line) = true ->
  nth_error (parseM3U m3uText)
            (length (filter isContentLine (map trim before)))
  = Some (mkChannel
            (lit "Channel "
               ++ numberToString
                    (length (filter isContentLine (map trim before)) + 1))
            [] [] [] [] (trim line) None).
Proof.
  intros Hsplit Hidle Hcont.
  unfold parseM3U, run. rewrite finish_parsed.
  set (init := initialState (split LF m3uText)) in *.
  rewrite Hsplit, fold_left_app. cbn [fold_left].
  set (st := fold_left processLine before init) in *.
  assert (Hk : length (parsedChannels st)
               = length (filter isContentLine (map trim before))).
  { unfold st. rewrite fold_processLine_count. unfold init, initialState.
    reflexivity. }
  rewrite (processLine_bare st line Hidle Hcont).
  destruct (fold_processLine_appends after
              (mkState
                 (parsedChannels st
                    ++ [basicEntry (length (parsedChannels st)) (trim line)])
                 None (console st ++ [UrlWithoutExtInf (trim line)])))
    as (more & ->).
  cbn [parsedChannels]. rewrite <- Hk.
  apply nth_error_at_length.
Qed.

Lemma bare_url_is_named_by_position_witness :
  split LF bareSecondPlaylist
  = [lit "#EXTM3U"; lit "#EXTINF:-1,A"; lit "http://a"]
      ++ lit "http://b" :: [lit "#EXTINF:-1,C"; lit "http://c"]
  /\ isContentLine (trim (lit "http://b")) = true
  /\ nth_error (parseM3U bareSecondPlaylist) 1
     = Some (mkChannel (lit "Channel 2") [] [] [] [] (lit "http://b") None).
Proof.
  split; [reflexivity|]. split; [reflexivity|].
  exact (bare_url_is_named_by_position bareSecondPlaylist
           [lit "#EXTM3U"; lit "#EXTINF:-1,A"; lit "http://a"]
           [lit "#EXTINF:-1,C"; lit "http://c"] (lit "http://b")
           eq_refl eq_refl eq_refl).
Defined.

(** X15. The number in the name of a record without display name and
    without [tvg-name] is its position too: when the directive is followed,
    after blank or header lines only, by its content line, and [k] content
    lines come before it in the text, the record is the one at index [k],
    it is called [Unnamed Channel k+1] and it has the content line as its
    URL. *)
Theorem unnamed_channel_is_named_by_position
  (m3uText : jsstring) (before : list jsstring) (directive a b : jsstring)
  (between : list jsstring) (urlLine : jsstring) (after : list jsstring) :
  split LF m3uText = before ++ directive :: between ++ urlLine :: after ->
  trim directive = lit "#EXTINF:" ++ a ++ COMMA :: b ->
  ~ In COMMA b ->
  trim b = [] ->
  tvgName (extractAttributes a
             (mkChannel [] [] [] [] [] [] (Some (trim directive)))) = [] ->
  Forall (fun l => isIgnoredLine (trim l) = true) between ->
  isContentLine (trim urlLine) = true ->
  exists c,
    nth_error (parseM3U m3uText)
              (length (filter isContentLine (map trim before))) = Some c
    /\ name c
       = lit "Unnamed Channel "
           ++ numberToString
                (length (filter isContentLine (map trim before)) + 1)
    /\ url c = trim urlLine.
Proof.
  intros Hsplit Hd Hb Hname Htvg Hbetween Hcont.
  unfold parseM3U, run. rewrite finish_parsed.
  set (init := initialState (split LF m3uText)) in *.
  rewrite Hsplit, fold_left_app. cbn [fold_left].
  set (st := fold_left processLine before init) in *.
  assert (Hk : length (parsedChannels st)
               = length (filter isContentLine (map trim before))).
  { unfold st. rewrite fold_processLine_count. unfold init, initialState.
    reflexivity. }
  rewrite (metadata_accepted st directive a b Hd Hb), Hname.
  rewrite fold_left_app, (fold_processLine_ignored between _ Hbetween).
  cbn [fold_left].
  set (pending := normalizeName (length (parsedChannels st))
                    (extractAttributes a
                       (mkChannel [] [] [] [] [] [] (Some (trim directive))))).
  rewrite (processLine_completes
             (mkState (parsedChannels st) (Some pending) (noteSuperseded st))
             pending urlLine eq_refl Hcont).
  cbn [parsedChannels console].
  destruct (fold_processLine_appends after
              (mkState (parsedChannels st ++ [finalize (trim urlLine) pending])
                 None (noteSuperseded st))) as (more & ->).
  cbn [parsedChannels]. rewrite <- Hk.
  exists (finalize (trim urlLine) pending).
  split; [apply nth_error_at_length|]. split; [|reflexivity].
  cbn [finalize name]. unfold pending.
  rewrite normalizeName_name, extractAttributes_name, Htvg.
  reflexivity.
Qed.

Lemma unnamed_channel_is_named_by_position_witness :
  split LF unnamedSecondPlaylist
  = [lit "#EXTM3U"; lit "#EXTINF:-1,A"; lit "http://a"]
      ++ lit "#EXTINF:-1," :: [[]] ++ lit "http://b" :: []
  /\ ~ In COMMA []
  /\ exists c,
      nth_error (parseM3U unnamedSecondPlaylist) 1 = Some c
      /\ name c = lit "Unnamed Channel 2"
      /\ url c = lit "http://b".
Proof.
  assert (Hbetween : Forall (fun l => isIgnoredLine (trim l) = true) [[]])
    by (repeat constructor).
  split; [reflexivity|]. split; [simpl; tauto|].
  exact (unnamed_channel_is_named_by_position unnamedSecondPlaylist
           [lit "#EXTM3U"; lit "#EXTINF:-1,A"; lit "http://a"]
           (lit "#EXTINF:-1,") (lit "-1") [] [[]] (lit "http://b") []
           eq_refl eq_refl (fun H : In COMMA [] => H) eq_refl eq_refl
           Hbetween eq_refl).
Defined.
